(** * Podcast_domination: contact discovery, ranking and discovery keys

    A shallow embedding of [scripts/scrapers/contact_finder.py] and of the
    parts of [scripts/scrapers/podcast_discovery.py] that derive dedupe keys
    and enrich a discovered podcast, with the properties of the contact
    pipeline stated and proved over it.

    Conventions of the embedding.
    - A Python [str] is a Rocq [string]; each character stands for the
      code point of the same number, so the development covers strings over
      code points 0..255.  [lower], [strip] and the regex classes [\w], [\d]
      follow Python on that range.
    - A confidence is a [Q].  The code only compares confidences and negates
      them; finite floats are rationals and both operations are exact on
      them, so the order is the one of the code.  The decimal literals 0.6,
      0.7 and 0.9 are written as the rationals of the same name, which are
      in the same order as the floats they denote.  NaN is not represented.
    - HTTP transport (aiohttp) and HTML parsing (BeautifulSoup) are
      parameters of the sections that use them.
    - An exception is a value of [exn]; only subclasses of Python's
      [Exception] are represented, which is what [except Exception] catches. *)

From Stdlib Require Import Bool Arith Lia List String Ascii ZArith QArith.
From Stdlib Require Import Sorted Permutation.
Import ListNotations.

Local Open Scope nat_scope.
Local Open Scope list_scope.
Local Open Scope string_scope.

(** ** Python strings *)

Module PyStr.

Definition code (c : ascii) : nat := nat_of_ascii c.

Definition between (lo hi : nat) (c : ascii) : bool :=
  (lo <=? code c)%nat && (code c <=? hi)%nat.

Definition is_ascii_upper (c : ascii) : bool := between 65 90 c.
Definition is_ascii_lower (c : ascii) : bool := between 97 122 c.
Definition is_ascii_alpha (c : ascii) : bool := is_ascii_upper c || is_ascii_lower c.
Definition is_digit (c : ascii) : bool := between 48 57 c.
Definition is_ascii_alnum (c : ascii) : bool := is_ascii_alpha c || is_digit c.

(** [str.lower] on one code point below 256: A-Z and the upper-case letters
    of the Latin-1 block (0xC0..0xDE without the multiplication sign 0xD7)
    move up by 32. *)
Definition lower_char (c : ascii) : ascii :=
  if is_ascii_upper c || (between 192 222 c && negb (code c =? 215)%nat)
  then ascii_of_nat (code c + 32)
  else c.

Fixpoint lower (s : string) : string :=
  match s with
  | EmptyString => EmptyString
  | String c s' => String (lower_char c) (lower s')
  end.

(** Characters removed by [str.strip()] with no argument. *)
Definition is_space (c : ascii) : bool :=
  between 9 13 c || between 28 32 c || (code c =? 133)%nat || (code c =? 160)%nat.

Fixpoint lstrip (s : string) : string :=
  match s with
  | EmptyString => EmptyString
  | String c s' => if is_space c then lstrip s' else s
  end.

(** [s.rstrip(chars)] for the set of characters recognised by [p]. *)
Fixpoint rstrip_by (p : ascii -> bool) (s : string) : string :=
  match s with
  | EmptyString => EmptyString
  | String c s' =>
      match rstrip_by p s' with
      | EmptyString => if p c then EmptyString else String c EmptyString
      | r => String c r
      end
  end.

Definition strip (s : string) : string := rstrip_by is_space (lstrip s).

(** [url.rstrip('/')] *)
Definition rstrip_slash (s : string) : string :=
  rstrip_by (Ascii.eqb "/"%char) s.

Fixpoint startswith (pat s : string) : bool :=
  match pat with
  | EmptyString => true
  | String p pat' =>
      match s with
      | EmptyString => false
      | String c s' => Ascii.eqb p c && startswith pat' s'
      end
  end.

(** [pat in s] *)
Fixpoint contains (pat s : string) : bool :=
  startswith pat s ||
  match s with
  | EmptyString => false
  | String _ s' => contains pat s'
  end.

(** [s.replace(pat, '')] for a non-empty [pat]: the occurrences are taken
    from the left and do not overlap.  [skip] counts the characters of the
    occurrence being removed that are still to be dropped. *)
Fixpoint replace_del_aux (pat s : string) (skip : nat) : string :=
  match s with
  | EmptyString => EmptyString
  | String c s' =>
      match skip with
      | S k => replace_del_aux pat s' k
      | O =>
          if startswith pat s
          then replace_del_aux pat s' (String.length pat - 1)
          else String c (replace_del_aux pat s' 0)
      end
  end.

Definition replace_del (pat s : string) : string := replace_del_aux pat s 0.

(** [s.split(sep)[0]] for a one-character separator. *)
Fixpoint split_head (sep : ascii) (s : string) : string :=
  match s with
  | EmptyString => EmptyString
  | String c s' =>
      if Ascii.eqb c sep then EmptyString else String c (split_head sep s')
  end.

Fixpoint filter_chars (p : ascii -> bool) (s : string) : string :=
  match s with
  | EmptyString => EmptyString
  | String c s' => if p c then String c (filter_chars p s') else filter_chars p s'
  end.

(** [s[:n]] *)
Fixpoint take (n : nat) (s : string) : string :=
  match n, s with
  | S n', String c s' => String c (take n' s')
  | _, _ => EmptyString
  end.

Fixpoint drop (n : nat) (s : string) : string :=
  match n, s with
  | S n', String _ s' => drop n' s'
  | _, _ => s
  end.

Fixpoint all_chars (p : ascii -> bool) (s : string) : bool :=
  match s with
  | EmptyString => true
  | String c s' => p c && all_chars p s'
  end.

(** [s.count(c)] for one character. *)
Fixpoint count_char (c : ascii) (s : string) : nat :=
  match s with
  | EmptyString => 0
  | String x s' => (if Ascii.eqb x c then 1 else 0) + count_char c s'
  end.

(** Truth value of a string: [if s:] *)
Definition truthy (s : string) : bool :=
  match s with EmptyString => false | _ => true end.

End PyStr.

(** ** Regular expressions

    The patterns of the two modules are sequences of single characters,
    greedy repetitions of a character class and the zero-width assertions
    [^], [$] and [\b].  [match_here] is the backtracking matcher of Python's
    [re] on such sequences: a repetition first takes as many characters as
    it can and gives them back one at a time until the rest of the pattern
    matches. *)

Module Re.
Import PyStr.

Inductive atom : Type :=
| Chr (cls : ascii -> bool)                         (* one character *)
| Rep (cls : ascii -> bool) (lo : nat) (hi : option nat)  (* cls{lo,hi}, greedy *)
| Bos                                               (* ^ *)
| Eos                                               (* $ *)
| WordB.                                            (* \b *)

Definition regex : Type := list atom.

(** [\w] on code points below 256: ASCII letters, digits and underscore,
    and the Latin-1 code points for which [str.isalnum] holds. *)
Definition is_word (c : ascii) : bool :=
  is_ascii_alnum c || (code c =? 95)%nat ||
  (code c =? 170)%nat || (code c =? 178)%nat || (code c =? 179)%nat || (code c =? 181)%nat ||
  (code c =? 185)%nat || (code c =? 186)%nat || between 188 190 c ||
  between 192 214 c || between 216 246 c || between 248 255 c.

Definition word_opt (c : option ascii) : bool :=
  match c with Some x => is_word x | None => false end.

Definition head (s : string) : option ascii :=
  match s with EmptyString => None | String c _ => Some c end.

(** [\b]: exactly one side of the position is a word character. *)
Definition at_boundary (prev : option ascii) (s : string) : bool :=
  xorb (word_opt prev) (word_opt (head s)).

(** [$] without MULTILINE: the end of the string, or just before a newline
    that ends the string. *)
Definition at_end (s : string) : bool :=
  match s with
  | EmptyString => true
  | String c EmptyString => (code c =? 10)%nat
  | _ => false
  end.

(** Length of the longest prefix of [s] made of [cls] characters, cut at
    [hi] when the repetition is bounded. *)
Fixpoint run (cls : ascii -> bool) (hi : option nat) (s : string) : nat :=
  match hi with
  | Some O => O
  | _ =>
      match s with
      | String c s' =>
          if cls c then S (run cls (option_map pred hi) s') else O
      | EmptyString => O
      end
  end.

(** The character before position [k] of [s], [prev] being the one before
    position 0. *)
Fixpoint prev_at (prev : option ascii) (s : string) (k : nat) : option ascii :=
  match k, s with
  | S k', String c s' => prev_at (Some c) s' k'
  | _, _ => prev
  end.

(** [match_here p prev s]: the pattern [p] is tried at the start of [s],
    [prev] being the character before it ([None] at the start of the
    subject).  The result is the length of the match found first. *)
Fixpoint match_here (p : regex) (prev : option ascii) (s : string) : option nat :=
  match p with
  | [] => Some O
  | Chr cls :: p' =>
      match s with
      | String c s' =>
          if cls c then option_map S (match_here p' (Some c) s') else None
      | EmptyString => None
      end
  | Rep cls lo hi :: p' =>
      (fix give_back (k : nat) : option nat :=
         let attempt :=
           if (lo <=? k)%nat
           then option_map (Nat.add k) (match_here p' (prev_at prev s k) (drop k s))
           else None in
         match attempt with
         | Some n => Some n
         | None => match k with O => None | S k' => give_back k' end
         end) (run cls hi s)
  | Bos :: p' =>
      match prev with None => match_here p' prev s | Some _ => None end
  | Eos :: p' => if at_end s then match_here p' prev s else None
  | WordB :: p' => if at_boundary prev s then match_here p' prev s else None
  end.

(** [re.match(p, s)] as a truth value. *)
Definition re_match (p : regex) (s : string) : bool :=
  match match_here p None s with Some _ => true | None => false end.

(** [re.search]: the first position, from the left, where the pattern
    matches; the result is the matched text. *)
Fixpoint search_from (p : regex) (prev : option ascii) (s : string) : option string :=
  match match_here p prev s with
  | Some n => Some (take n s)
  | None =>
      match s with
      | EmptyString => None
      | String c s' => search_from p (Some c) s'
      end
  end.

Definition search (p : regex) (s : string) : option string := search_from p None s.

Definition re_search (p : regex) (s : string) : bool :=
  match search p s with Some _ => true | None => false end.

(** [pattern.findall(s)] for a pattern without groups: the matches from left
    to right, each search resuming where the previous match ended (one
    character further after an empty match).  [skip] counts the characters
    of the last match still to be passed. *)
Fixpoint findall_from (p : regex) (prev : option ascii) (s : string) (skip : nat)
  : list string :=
  match s with
  | EmptyString =>
      match skip, match_here p prev s with
      | O, Some _ => [EmptyString]
      | _, _ => []
      end
  | String c s' =>
      match skip with
      | S k => findall_from p (Some c) s' k
      | O =>
          match match_here p prev s with
          | Some n => take n s :: findall_from p (Some c) s' (pred n)
          | None => findall_from p (Some c) s' 0
          end
      end
  end.

Definition findall (p : regex) (s : string) : list string := findall_from p None s 0.

(** A pattern without metacharacters. *)
Fixpoint lit (w : string) : regex :=
  match w with
  | EmptyString => []
  | String c w' => Chr (Ascii.eqb c) :: lit w'
  end.

(** The same under [re.I]: a letter stands for both of its cases. *)
Fixpoint lit_nocase (w : string) : regex :=
  match w with
  | EmptyString => []
  | String c w' => Chr (fun x => Ascii.eqb (lower_char x) (lower_char c)) :: lit_nocase w'
  end.

Definition plus (cls : ascii -> bool) : atom := Rep cls 1 None.

End Re.

(** ** Exceptions and local state

    A Python function body is a state transformer over its local mutable
    variables that either returns or raises.  State written before an
    exception is raised is still there when the handler runs. *)

Module Py.

Inductive exn : Type :=
| ClientError (msg : string)      (* aiohttp.ClientError and subclasses *)
| TimeoutError                    (* asyncio.TimeoutError *)
| ValueError (msg : string)
| AttributeError (msg : string)
| OtherException (msg : string).

Inductive outcome (A : Type) : Type :=
| Ret (a : A)
| Raise (e : exn).
Arguments Ret {A} a.
Arguments Raise {A} e.

Definition M (S A : Type) : Type := S -> outcome A * S.

Definition ret {S A} (a : A) : M S A := fun s => (Ret a, s).

Definition bind {S A B} (m : M S A) (k : A -> M S B) : M S B :=
  fun s =>
    match m s with
    | (Ret a, s') => k a s'
    | (Raise e, s') => (Raise e, s')
    end.

(** [await f(...)]: the outcome of a call that does not touch the local
    state. *)
Definition await {S A} (o : outcome A) : M S A := fun s => (o, s).

Definition get {S} : M S S := fun s => (Ret s, s).

Definition modify {S} (f : S -> S) : M S unit := fun s => (Ret tt, f s).

(** [try: body except Exception as e: handler e] *)
Definition try_except {S A} (body : M S A) (handler : exn -> M S A) : M S A :=
  fun s =>
    match body s with
    | (Ret a, s') => (Ret a, s')
    | (Raise e, s') => handler e s'
    end.

Declare Scope py_scope.
Delimit Scope py_scope with py.
Notation "x <- m ;; k" := (bind m (fun x => k))
  (at level 100, m at next level, right associativity) : py_scope.
Notation "m ;;; k" := (bind m (fun _ => k))
  (at level 100, right associativity) : py_scope.

(** [for x in l: f x] *)
Fixpoint for_each {S A} (l : list A) (f : A -> M S unit) : M S unit :=
  match l with
  | [] => ret tt
  | x :: l' => bind (f x) (fun _ => for_each l' f)
  end.

(** A function whose last statement returns the local variable: the body is
    run from the initial value of the variable. *)
Definition returning {S} (init : S) (body : M S unit) : outcome S :=
  match body init with
  | (Ret _, s) => Ret s
  | (Raise e, _) => Raise e
  end.

(** A function that returns the value of its body. *)
Definition eval {S A} (init : S) (body : M S A) : outcome A := fst (body init).

End Py.

(** ** contact_finder.py *)

Module ContactFinder.
Import PyStr Re Py.
Local Open Scope py_scope.

(** [@dataclass ContactResult] *)
Record ContactResult : Type := mkContactResult {
  email : string;
  source_url : string;
  contact_type : string;
  confidence : Q
}.

(** [ContactFinder.__init__] *)
Definition booking_patterns : list regex :=
  map lit ["booking"; "guest"; "podcast"; "media"; "inquir"; "press"; "interview"].

Definition host_patterns : list regex :=
  map lit ["@gmail.com"; "@yahoo.com"; "@outlook.com"; "@icloud.com"; "@me.com"].

Definition in_chars (chars : string) (c : ascii) : bool :=
  existsb (Ascii.eqb c) (list_ascii_of_string chars).

(** [_is_valid_email] *)
Definition skip_patterns : list string :=
  [ "noreply"; "no-reply"; "donotreply"; "mailer-daemon";
    "example.com"; "example.org"; "test.com";
    ".png"; ".jpg"; ".gif"; ".svg";
    "wixpress"; "sentry.io"; "cloudflare";
    "privacy@"; "abuse@"; "postmaster@"; "webmaster@" ].

(** [^[a-zA-Z0-9._%+-]+@[a-zA-Z0-9.-]+\.[a-zA-Z]{2,}$] *)
Definition email_format : regex :=
  [ Bos;
    plus (fun c => is_ascii_alnum c || in_chars "._%+-" c);
    Chr (Ascii.eqb "@");
    plus (fun c => is_ascii_alnum c || in_chars ".-" c);
    Chr (Ascii.eqb ".");
    Rep is_ascii_alpha 2 None;
    Eos ].

Definition _is_valid_email (email : string) : bool :=
  if negb (truthy email) || negb (contains "@" email) then false
  else
    let email_lower := lower email in
    if existsb (fun pattern => contains pattern email_lower) skip_patterns then false
    else if negb (re_match email_format email) then false
    else true.

(** [_classify_email] *)
Definition _classify_email (email context : string) : string :=
  let combined := lower (email ++ " " ++ context) in
  if existsb (fun pattern => re_search pattern combined) booking_patterns then "booking"
  else if existsb (fun pattern => re_search pattern (lower email)) host_patterns then "host"
  else if contains "producer" combined || contains "production" combined then "producer"
  else "general".

(** A [dict] with string keys: the entries in insertion order.  Assigning to
    a key that is present replaces its value where it stands. *)
Definition dict (V : Type) : Type := list (string * V).

Fixpoint dict_get {V} (k : string) (d : dict V) : option V :=
  match d with
  | [] => None
  | (k', v) :: d' => if String.eqb k k' then Some v else dict_get k d'
  end.

Fixpoint dict_set {V} (k : string) (v : V) (d : dict V) : dict V :=
  match d with
  | [] => [(k, v)]
  | (k', v') :: d' =>
      if String.eqb k k' then (k', v) :: d' else (k', v') :: dict_set k v d'
  end.

Definition dict_values {V} (d : dict V) : list V := map snd d.

(** [a > b] on confidences *)
Definition Qgtb (a b : Q) : bool :=
  match (a ?= b)%Q with Gt => true | _ => false end.

(** One turn of the dedupe loop of [_rank_contacts]. *)
Definition dedupe_step (seen : dict ContactResult) (contact : ContactResult)
  : dict ContactResult :=
  match dict_get (email contact) seen with
  | None => dict_set (email contact) contact seen
  | Some kept =>
      if Qgtb (confidence contact) (confidence kept)
      then dict_set (email contact) contact seen
      else seen
  end.

Definition dedupe (contacts : list ContactResult) : list ContactResult :=
  dict_values (fold_left dedupe_step contacts []).

(** [type_priority.get(contact_type, 99)] *)
Definition type_priority (contact_type : string) : nat :=
  if String.eqb contact_type "booking" then 0
  else if String.eqb contact_type "host" then 1
  else if String.eqb contact_type "producer" then 2
  else if String.eqb contact_type "general" then 3
  else 99.

(** The sort key [(type_priority, -confidence)] and [<] on such tuples:
    the first components decide unless they are equal. *)
Definition sort_key (c : ContactResult) : nat * Q :=
  (type_priority (contact_type c), Qopp (confidence c)).

Definition key_ltb (k1 k2 : nat * Q) : bool :=
  if (fst k1 =? fst k2)%nat
  then match (snd k1 ?= snd k2)%Q with Lt => true | _ => false end
  else (fst k1 <? fst k2)%nat.

(** [list.sort(key=...)] is stable and compares keys with [<] only. *)
Fixpoint insert_by {A K} (key : A -> K) (ltb : K -> K -> bool) (x : A) (l : list A)
  : list A :=
  match l with
  | [] => [x]
  | y :: l' =>
      if ltb (key y) (key x) then y :: insert_by key ltb x l' else x :: l
  end.

Definition sort_by {A K} (key : A -> K) (ltb : K -> K -> bool) (l : list A) : list A :=
  fold_right (insert_by key ltb) [] l.

Definition _rank_contacts (contacts : list ContactResult) : list ContactResult :=
  let unique := dedupe contacts in
  sort_by sort_key key_ltb unique.

(** [\b[A-Za-z0-9._%+-]+@[A-Za-z0-9.-]+\.[A-Z|a-z]{2,7}\b]; the last class
    contains the bar. *)
Definition email_pattern : regex :=
  [ WordB;
    plus (fun c => is_ascii_alnum c || in_chars "._%+-" c);
    Chr (Ascii.eqb "@");
    plus (fun c => is_ascii_alnum c || in_chars ".-" c);
    Chr (Ascii.eqb ".");
    Rep (fun c => is_ascii_alpha c || in_chars "|" c) 2 (Some 7);
    WordB ].

(** [re.compile(r'^mailto:', re.I)] *)
Definition mailto_re : regex := Bos :: lit_nocase "mailto:".

(** An [<a>] element that has an [href]: the attribute and [get_text()]. *)
Record anchor : Type := mkAnchor { href : string; get_text : string }.

(** The response of [session.get]: its status and the outcome of
    [await resp.text()]. *)
Record response : Type := mkResponse { status : Z; text : outcome string }.

Definition paths_to_check : list string :=
  [ "/contact"; "/contact-us"; "/be-a-guest"; "/guest"; "/podcast";
    "/about"; "/media"; "/press"; "/booking"; EmptyString ].

Section Finder.

(** [self.session.get(url)]: a response, or the exception raised. *)
Variable session_get : string -> outcome response.

(** [BeautifulSoup(html, 'html.parser').find_all('a', href=True)] in
    document order. *)
Variable soup_anchors : string -> list anchor.

Definition contacts_append (c : ContactResult) : M (list ContactResult) unit :=
  modify (fun contacts => (contacts ++ [c])%list).

Definition _scrape_page_for_emails (url : string) : outcome (list ContactResult) :=
  returning []
    (try_except
       (resp <- await (session_get url) ;;
        if negb (status resp =? 200)%Z then ret tt
        else
          html <- await (text resp) ;;
          let mailto_links :=
            filter (fun a => re_search mailto_re (href a)) (soup_anchors html) in
          for_each mailto_links (fun link =>
            let email := strip (split_head "?" (replace_del "mailto:" (href link))) in
            if _is_valid_email email then
              let contact_type := _classify_email email (get_text link) in
              contacts_append (mkContactResult (lower email) url contact_type
                        (if String.eqb contact_type "booking" then 0.9 else 0.7)%Q)
            else ret tt) ;;;
          let text_emails := findall email_pattern html in
          for_each text_emails (fun email =>
            if _is_valid_email email then
              contacts <- get ;;
              if negb (existsb (fun c => String.eqb (ContactFinder.email c) (lower email)) contacts)
              then
                let contact_type := _classify_email email EmptyString in
                contacts_append (mkContactResult (lower email) url contact_type 0.6%Q)
              else ret tt
            else ret tt))
       (fun e => ret tt)).

Definition _check_directories (podcast_name : string) : outcome (list ContactResult) :=
  let contacts : list ContactResult := [] in
  let directories :=
    [ ("podchaser", "https://www.podchaser.com/search?q=" ++ podcast_name);
      ("chartable", "https://chartable.com/search?q=" ++ podcast_name) ] in
  Ret contacts.

Definition _scan_website (base_url : string) : outcome (list ContactResult) :=
  returning []
    (for_each paths_to_check (fun path =>
       let url := rstrip_slash base_url ++ path in
       page_contacts <- await (_scrape_page_for_emails url) ;;
       modify (fun contacts => (contacts ++ page_contacts)%list))).

Definition find_contacts
    (website_url : option string) (podcast_name : string)
    (social_links : option (list string))
  : outcome (option ContactResult * option ContactResult) :=
  eval []
    ((match website_url with
      | Some u =>
          if truthy u then
            website_contacts <- await (_scan_website u) ;;
            modify (fun all_contacts => (all_contacts ++ website_contacts)%list)
          else ret tt
      | None => ret tt
      end) ;;;
     directory_contacts <- await (_check_directories podcast_name) ;;
     modify (fun all_contacts => (all_contacts ++ directory_contacts)%list) ;;;
     all_contacts <- get ;;
     let ranked := _rank_contacts all_contacts in
     let primary := nth_error ranked 0 in
     let backup := nth_error ranked 1 in
     ret (primary, backup)).

(** *** What the loops compute

    The two loops of [_scrape_page_for_emails] as folds over the list of
    contacts, and the list a page yields; [scrape_page_result] below shows
    that they describe the function above. *)

Definition mailto_step (url : string) (contacts : list ContactResult) (link : anchor)
  : list ContactResult :=
  let email := strip (split_head "?" (replace_del "mailto:" (href link))) in
  if _is_valid_email email then
    let contact_type := _classify_email email (get_text link) in
    (contacts ++ [mkContactResult (lower email) url contact_type
                    (if String.eqb contact_type "booking" then 0.9 else 0.7)%Q])%list
  else contacts.

Definition text_step (url : string) (contacts : list ContactResult) (email : string)
  : list ContactResult :=
  if _is_valid_email email then
    if negb (existsb (fun c => String.eqb (ContactFinder.email c) (lower email)) contacts)
    then (contacts ++ [mkContactResult (lower email) url
                         (_classify_email email EmptyString) 0.6%Q])%list
    else contacts
  else contacts.

Definition page_contacts (url html : string) : list ContactResult :=
  fold_left (text_step url) (findall email_pattern html)
    (fold_left (mailto_step url)
       (filter (fun a => re_search mailto_re (href a)) (soup_anchors html)) []).

Definition page_result (url : string) : list ContactResult :=
  match session_get url with
  | Ret resp =>
      if (status resp =? 200)%Z then
        match text resp with
        | Ret html => page_contacts url html
        | Raise _ => []
        end
      else []
  | Raise _ => []
  end.

(** The page at [url] was fetched: the request returned status 200 and a
    body. *)
Definition fetched (url : string) : Prop :=
  exists resp html,
    session_get url = Ret resp /\ status resp = 200%Z /\ text resp = Ret html.

End Finder.

(** What every candidate built by the two loops satisfies. *)
Definition stored_ok (c : ContactResult) : Prop :=
  In (contact_type c) ["booking"; "host"; "producer"; "general"]
  /\ ((confidence c = 0.9%Q /\ contact_type c = "booking")
      \/ (confidence c = 0.7%Q /\ contact_type c <> "booking")
      \/ confidence c = 0.6%Q)
  /\ lower (email c) = email c
  /\ contains "@" (email c) = true
  /\ (forall pattern, In pattern skip_patterns -> contains pattern (email c) = false).

(** The keywords behind [booking_patterns], and how the type of a stored
    candidate goes with them. *)
Definition booking_keywords : list string :=
  ["booking"; "guest"; "podcast"; "media"; "inquir"; "press"; "interview"].

Definition has_booking_keyword (s : string) : bool :=
  existsb (fun keyword => contains keyword s) booking_keywords.

Definition booking_consistent (c : ContactResult) : Prop :=
  (has_booking_keyword (email c) = true -> contact_type c = "booking")
  /\ (contact_type c = "booking" ->
      confidence c = 0.9%Q \/ has_booking_keyword (email c) = true).

(** [b] stands before [g] in [l]. *)
Definition precedes {A} (b g : A) (l : list A) : Prop :=
  exists l1 l2 l3, l = (l1 ++ b :: l2 ++ g :: l3)%list.

(** The instance of the address [e] that the dedupe loop holds after a list
    of contacts: the loop of [_rank_contacts] seen from one key. *)
Definition best_step (e : string) (kept : option ContactResult) (c : ContactResult)
  : option ContactResult :=
  if String.eqb (email c) e then
    match kept with
    | None => Some c
    | Some k => if Qgtb (confidence c) (confidence k) then Some c else kept
    end
  else kept.

Definition best_for (e : string) (contacts : list ContactResult) : option ContactResult :=
  fold_left (best_step e) contacts None.

(** Every entry of [seen] is filed under its own address, once. *)
Definition seen_ok (seen : dict ContactResult) : Prop :=
  NoDup (map fst seen) /\ Forall (fun kv => email (snd kv) = fst kv) seen.

(** The order of sort keys: by priority, then by negated confidence. *)
Definition key_le (k1 k2 : nat * Q) : Prop :=
  (fst k1 < fst k2)%nat \/ (fst k1 = fst k2 /\ (snd k1 <= snd k2)%Q).

End ContactFinder.

(** ** podcast_discovery.py *)

Module PodcastDiscovery.
Import PyStr Re Py.
Local Open Scope py_scope.

(** [@dataclass PodcastDiscoveryResult] *)
Record PodcastDiscoveryResult : Type := mkPodcast {
  show_name : string;
  host_name : option string;
  primary_platform_url : string;
  website_url : option string;
  apple_podcast_url : option string;
  spotify_url : option string;
  show_description : option string;
  recent_episode_titles : list string;
  recent_guests : list string;
  primary_email : option string;
  primary_email_source_url : option string;
  backup_email : option string;
  backup_email_source_url : option string;
  discovery_source : string;
  risk_signals : list string;
  dedupe_key : string
}.

(** Assignments to the attributes that [enrich_podcast] writes. *)
Definition set_website_url (v : option string) (p : PodcastDiscoveryResult) :=
  mkPodcast (show_name p) (host_name p) (primary_platform_url p) v
    (apple_podcast_url p) (spotify_url p) (show_description p)
    (recent_episode_titles p) (recent_guests p)
    (primary_email p) (primary_email_source_url p)
    (backup_email p) (backup_email_source_url p)
    (discovery_source p) (risk_signals p) (dedupe_key p).

Definition set_primary_email (v : option string) (p : PodcastDiscoveryResult) :=
  mkPodcast (show_name p) (host_name p) (primary_platform_url p) (website_url p)
    (apple_podcast_url p) (spotify_url p) (show_description p)
    (recent_episode_titles p) (recent_guests p)
    v (primary_email_source_url p)
    (backup_email p) (backup_email_source_url p)
    (discovery_source p) (risk_signals p) (dedupe_key p).

Definition set_primary_email_source_url (v : option string) (p : PodcastDiscoveryResult) :=
  mkPodcast (show_name p) (host_name p) (primary_platform_url p) (website_url p)
    (apple_podcast_url p) (spotify_url p) (show_description p)
    (recent_episode_titles p) (recent_guests p)
    (primary_email p) v
    (backup_email p) (backup_email_source_url p)
    (discovery_source p) (risk_signals p) (dedupe_key p).

Definition set_backup_email (v : option string) (p : PodcastDiscoveryResult) :=
  mkPodcast (show_name p) (host_name p) (primary_platform_url p) (website_url p)
    (apple_podcast_url p) (spotify_url p) (show_description p)
    (recent_episode_titles p) (recent_guests p)
    (primary_email p) (primary_email_source_url p)
    v (backup_email_source_url p)
    (discovery_source p) (risk_signals p) (dedupe_key p).

Definition set_backup_email_source_url (v : option string) (p : PodcastDiscoveryResult) :=
  mkPodcast (show_name p) (host_name p) (primary_platform_url p) (website_url p)
    (apple_podcast_url p) (spotify_url p) (show_description p)
    (recent_episode_titles p) (recent_guests p)
    (primary_email p) (primary_email_source_url p)
    (backup_email p) v
    (discovery_source p) (risk_signals p) (dedupe_key p).

(** Truth value of an [Optional[str]]. *)
Definition truthy_opt (o : option string) : bool :=
  match o with Some s => truthy s | None => false end.

(** [/id(\d+)] and [/show/([a-zA-Z0-9]+)].  The group is the last item of
    the pattern, so [group(1)] is the match without its literal prefix. *)
Definition apple_re : regex := (lit "/id" ++ [plus is_digit])%list.
Definition spotify_re : regex := (lit "/show/" ++ [plus is_ascii_alnum])%list.

Definition group1 (prefix : string) (m : string) : string :=
  drop (String.length prefix) m.

(** [_is_valid_contact_email] *)
Definition contact_skip_patterns : list string :=
  [ "noreply"; "no-reply"; "donotreply";
    "info@"; "support@"; "help@";
    "privacy@"; "legal@"; "abuse@";
    ".png"; ".jpg"; ".gif" ].

Definition good_patterns : list string :=
  [ "booking"; "guest"; "contact"; "podcast"; "hello"; "hi@" ].

Definition _is_valid_contact_email (email : string) : bool :=
  let email_lower := lower email in
  if existsb (fun pattern => contains pattern email_lower) contact_skip_patterns
  then false
  else
    let is_preferred := existsb (fun p => contains p email_lower) good_patterns in
    true.

(** [\b[A-Za-z0-9._%+-]+@[A-Za-z0-9.-]+\.[A-Z|a-z]{2,}\b] *)
Definition email_pattern : regex :=
  [ WordB;
    plus (fun c => is_ascii_alnum c || ContactFinder.in_chars "._%+-" c);
    Chr (Ascii.eqb "@");
    plus (fun c => is_ascii_alnum c || ContactFinder.in_chars ".-" c);
    Chr (Ascii.eqb ".");
    Rep (fun c => is_ascii_alpha c || ContactFinder.in_chars "|" c) 2 None;
    WordB ].

(** [re.compile(r'^mailto:')] *)
Definition mailto_re : regex := Bos :: lit "mailto:".

(** An entry of the list built by [_find_emails]:
    [{"email": ..., "source": ...}]. *)
Record email_entry : Type := mkEntry { entry_email : string; entry_source : string }.

Section Engine.

(** [urlparse(url).netloc], or the [ValueError] that [urlparse] raises on a
    malformed network location. *)
Variable urlparse_netloc : string -> outcome string.

(** [hashlib.md5(s.encode()).hexdigest()] *)
Variable md5_hexdigest : string -> string.

(** [self.session.get(url, ...)] *)
Variable session_get : string -> outcome ContactFinder.response.

(** [BeautifulSoup(html, 'html.parser').find_all('a', href=True)] *)
Variable soup_anchors : string -> list ContactFinder.anchor.

(** The [href] of
    [soup.find('a', class_='link', href=re.compile(r'^https?://(?!podcasts\.apple)'))],
    if there is such an element. *)
Variable soup_find_website_link : string -> option string.

Definition _generate_dedupe_key (url show_name : string) : outcome string :=
  match urlparse_netloc url with
  | Raise e => Raise e
  | Ret netloc =>
      match search apple_re url with
      | Some apple_match => Ret ("apple:" ++ group1 "/id" apple_match)
      | None =>
          match search spotify_re url with
          | Some spotify_match => Ret ("spotify:" ++ group1 "/show/" spotify_match)
          | None =>
              if truthy netloc then
                let normalized_name :=
                  filter_chars (fun c => is_ascii_lower c || is_digit c) (lower show_name) in
                Ret ("web:" ++ netloc ++ "|" ++ normalized_name)
              else
                Ret ("hash:" ++ take 12 (md5_hexdigest (url ++ show_name)))
          end
      end
  end.

Definition _find_website (podcast : PodcastDiscoveryResult) : outcome (option string) :=
  match apple_podcast_url podcast with
  | None => Ret None
  | Some apple_url =>
  if truthy apple_url then
    eval tt
      (try_except
         (resp <- await (session_get apple_url) ;;
          if (ContactFinder.status resp =? 200)%Z then
            html <- await (ContactFinder.text resp) ;;
            match soup_find_website_link html with
            | Some link_href => ret (Some link_href)
            | None => ret None
            end
          else ret None)
         (fun e => ret None))
  else Ret None
  end.

Definition _find_emails (website_url : string) : outcome (list email_entry) :=
  let urls_to_check :=
    [ website_url;
      rstrip_slash website_url ++ "/contact";
      rstrip_slash website_url ++ "/contact-us";
      rstrip_slash website_url ++ "/about";
      rstrip_slash website_url ++ "/guest";
      rstrip_slash website_url ++ "/be-a-guest" ] in
  match
    returning []
      (for_each urls_to_check (fun url =>
         try_except
           (resp <- await (session_get url) ;;
            if (ContactFinder.status resp =? 200)%Z then
              html <- await (ContactFinder.text resp) ;;
              let mailto_links :=
                filter (fun a => re_search mailto_re (ContactFinder.href a))
                       (soup_anchors html) in
              for_each mailto_links (fun link =>
                let email :=
                  split_head "?" (replace_del "mailto:" (ContactFinder.href link)) in
                if _is_valid_contact_email email
                then modify (fun emails => (emails ++ [mkEntry email url])%list)
                else ret tt) ;;;
              let found := findall email_pattern html in
              for_each found (fun email =>
                emails <- get ;;
                if _is_valid_contact_email email &&
                   negb (existsb (String.eqb email) (map entry_email emails))
                then modify (fun emails => (emails ++ [mkEntry email url])%list)
                else ret tt)
            else ret tt)
           (fun e => ret tt)))
  with
  | Ret emails => Ret (firstn 2 emails)
  | Raise e => Raise e
  end.

Definition enrich_podcast (podcast : PodcastDiscoveryResult)
  : outcome PodcastDiscoveryResult :=
  returning podcast
    ((p <- get ;;
      if negb (truthy_opt (website_url p)) && truthy (primary_platform_url p) then
        found <- await (_find_website p) ;;
        modify (set_website_url found)
      else ret tt) ;;;
     p <- get ;;
     match website_url p with
     | None => ret tt
     | Some site =>
     if truthy site then
       emails <- await (_find_emails site) ;;
       match emails with
       | e0 :: rest =>
           modify (set_primary_email (Some (entry_email e0))) ;;;
           modify (set_primary_email_source_url (Some (entry_source e0))) ;;;
           match rest with
           | e1 :: _ =>
               modify (set_backup_email (Some (entry_email e1))) ;;;
               modify (set_backup_email_source_url (Some (entry_source e1)))
           | [] => ret tt
           end
       | [] => ret tt
       end
     else ret tt
     end).

End Engine.

(** [_detect_risk_signals] *)
Definition political_terms : list string :=
  [ "democrat"; "republican"; "trump"; "biden"; "maga";
    "liberal"; "conservative"; "political" ].

Definition explicit_terms : list string := [ "explicit"; "adult"; "nsfw"; "18+" ].

Definition paid_terms : list string :=
  [ "sponsor a slot"; "guest sponsorship"; "paid guest";
    "buy a spot"; "sponsor an episode" ].

Definition no_guest_terms : list string :=
  [ "solo show"; "no interviews"; "monologue"; "solo podcast" ].

Definition _detect_risk_signals (title description : string) : list string :=
  let signals : list string := [] in
  let content := lower (title ++ " " ++ description) in
  let signals :=
    if existsb (fun term => contains term content) political_terms
    then (signals ++ ["POTENTIAL_POLITICS"])%list else signals in
  let signals :=
    if existsb (fun term => contains term content) explicit_terms
    then (signals ++ ["POTENTIAL_EXPLICIT"])%list else signals in
  let signals :=
    if existsb (fun term => contains term content) paid_terms
    then (signals ++ ["POTENTIAL_PAID_GUEST"])%list else signals in
  let signals :=
    if existsb (fun term => contains term content) no_guest_terms
    then (signals ++ ["POTENTIAL_NO_GUESTS"])%list else signals in
  signals.

(** The assignment [r.discovery_source = v]. *)
Definition set_discovery_source (v : string) (p : PodcastDiscoveryResult) :=
  mkPodcast (show_name p) (host_name p) (primary_platform_url p) (website_url p)
    (apple_podcast_url p) (spotify_url p) (show_description p)
    (recent_episode_titles p) (recent_guests p)
    (primary_email p) (primary_email_source_url p)
    (backup_email p) (backup_email_source_url p)
    v (risk_signals p) (dedupe_key p).

(** [l[:n]] for an integer [n]: a negative [n] counts from the end. *)
Definition py_slice_to {A} (n : Z) (l : list A) : list A :=
  if (0 <=? n)%Z then firstn (Z.to_nat n) l
  else firstn (List.length l - Z.to_nat (- n)) l.

Definition double_quote : string := String (ascii_of_nat 34) EmptyString.

(** The dedupe loop shared by [search_by_seed_guest] and
    [search_by_category]: [seen_keys] is the set of keys met so far, [tag]
    the value written to [discovery_source]. *)
Definition unique_step (tag : string)
    (state : list string * list PodcastDiscoveryResult) (r : PodcastDiscoveryResult)
  : list string * list PodcastDiscoveryResult :=
  let '(seen_keys, unique_results) := state in
  if negb (existsb (String.eqb (dedupe_key r)) seen_keys)
  then (dedupe_key r :: seen_keys,
        (unique_results ++ [set_discovery_source tag r])%list)
  else (seen_keys, unique_results).

Section Search.

(** [self.listen_notes_key] and [self.podcast_index_key] *)
Variable listen_notes_key : option string.
Variable podcast_index_key : option string.

(** The list [results] at the end of the [try] block of
    [_search_listen_notes_guest], of [_search_podcast_index] and of
    [_search_apple_podcasts]: what the request and the decoding of its JSON
    answer produced, empty after an error. *)
Variable listen_notes_podcasts : string -> list PodcastDiscoveryResult.
Variable podcast_index_feeds : string -> Z -> list PodcastDiscoveryResult.
Variable apple_podcasts : string -> Z -> list PodcastDiscoveryResult.

Definition _search_listen_notes_guest (guest_name : string) (limit : Z)
  : list PodcastDiscoveryResult :=
  if negb (truthy_opt listen_notes_key) then []
  else py_slice_to limit (listen_notes_podcasts guest_name).

Definition _search_podcast_index (query : string) (limit : Z)
  : list PodcastDiscoveryResult :=
  if negb (truthy_opt podcast_index_key) then []
  else podcast_index_feeds query limit.

Definition _search_apple_podcasts (query : string) (limit : Z)
  : list PodcastDiscoveryResult :=
  apple_podcasts query limit.

Definition search_by_seed_guest (guest_name : string) (max_results : Z)
  : list PodcastDiscoveryResult :=
  let results : list PodcastDiscoveryResult := [] in
  let results :=
    if truthy_opt listen_notes_key
    then (results ++ _search_listen_notes_guest guest_name max_results)%list
    else results in
  let results :=
    if truthy_opt podcast_index_key && (Z.of_nat (List.length results) <? max_results)%Z
    then (results ++
          _search_podcast_index (double_quote ++ guest_name ++ double_quote)
            (max_results - Z.of_nat (List.length results)))%list
    else results in
  let unique_results :=
    snd (fold_left (unique_step ("seed:" ++ guest_name)) results ([], [])) in
  py_slice_to max_results unique_results.

Definition search_by_category (category_query : string) (max_results : Z)
  : list PodcastDiscoveryResult :=
  let results : list PodcastDiscoveryResult := [] in
  let results := (results ++ _search_apple_podcasts category_query max_results)%list in
  let results :=
    if truthy_opt podcast_index_key && (Z.of_nat (List.length results) <? max_results)%Z
    then (results ++
          _search_podcast_index category_query
            (max_results - Z.of_nat (List.length results)))%list
    else results in
  let unique_results :=
    snd (fold_left (unique_step ("category:" ++ category_query)) results ([], [])) in
  py_slice_to max_results unique_results.

End Search.

(** The assignments that [enrich_podcast] makes for a list of entries. *)
Definition apply_emails (emails : list email_entry) (p : PodcastDiscoveryResult)
  : PodcastDiscoveryResult :=
  match emails with
  | e0 :: rest =>
      let p1 :=
        set_primary_email_source_url (Some (entry_source e0))
          (set_primary_email (Some (entry_email e0)) p) in
      match rest with
      | e1 :: _ =>
          set_backup_email_source_url (Some (entry_source e1))
            (set_backup_email (Some (entry_email e1)) p1)
      | [] => p1
      end
  | [] => p
  end.

(** [w] followed by a character of [cls] stands in [s] right after the
    prefix [before]. *)
Definition occurs_after (w : string) (cls : ascii -> bool) (s before : string) : Prop :=
  exists c rest, s = before ++ w ++ String c rest /\ cls c = true.

(** What a search for [w] followed by one or more characters of [cls]
    captures in [s]: [before] is the text up to the first place where [w]
    is followed by a [cls] character, [run_text] the whole run of [cls]
    characters after [w] there, and [rest] what follows the run. *)
Definition first_capture (w : string) (cls : ascii -> bool)
    (s before run_text rest : string) : Prop :=
  s = before ++ w ++ run_text ++ rest
  /\ run_text <> EmptyString
  /\ all_chars cls run_text = true
  /\ match rest with String c _ => cls c = false | EmptyString => True end
  /\ forall b, occurs_after w cls s b -> String.length before <= String.length b.

(** An e-mail field and its source field are both set or both unset. *)
Definition email_pairs_ok (p : PodcastDiscoveryResult) : Prop :=
  (primary_email p = None <-> primary_email_source_url p = None)
  /\ (backup_email p = None <-> backup_email_source_url p = None).

End PodcastDiscovery.

(** ** Concrete inputs

    The inputs at which the properties below are instantiated. *)

Module Scenario.
Import PyStr Re Py ContactFinder.

Definition dquote : string := String (ascii_of_nat 34) EmptyString.

(** A homepage with one mail link and one address in its text. *)
Definition homepage_html : string :=
  "<html><body><a href=" ++ dquote ++ "mailto:press@show.com" ++ dquote ++
  ">Press</a> contact us at info@show.com</body></html>".

Definition homepage_url : string := "https://show.com".

(** A site of which only the homepage can be fetched; the client rejects
    every other URL, the empty one included. *)
Definition session_get (url : string) : outcome response :=
  if String.eqb url homepage_url
  then Ret (mkResponse 200 (Ret homepage_html))
  else Raise (ClientError "cannot connect").

Definition soup_anchors (html : string) : list anchor :=
  if String.eqb html homepage_html
  then [mkAnchor "mailto:press@show.com" "Press"]
  else [].

(** Two observations of one address, the weaker one typed booking. *)
Definition booking_low : ContactResult :=
  mkContactResult "team@show.com" "https://show.com/contact" "booking" 0.5%Q.

Definition general_high : ContactResult :=
  mkContactResult "team@show.com" "https://show.com/about" "general" 0.95%Q.

(** A show listed on Apple Podcasts, as the search step builds it. *)
Definition apple_url : string :=
  "https://podcasts.apple.com/us/podcast/the-show/id1234567890".

Definition netloc_of (url : string) : outcome string :=
  if String.eqb url apple_url then Ret "podcasts.apple.com" else Ret EmptyString.

Definition digest_of (s : string) : string := "9e107d9d372bb6826bd81d3542a419d6".

Definition fresh_podcast : PodcastDiscovery.PodcastDiscoveryResult :=
  PodcastDiscovery.mkPodcast
    "The Show" (Some "Jane Host") apple_url (Some homepage_url) (Some apple_url) None
    (Some "Conversations with guests") [] []
    None None None None
    "seed:Jane Guest" [] "apple:1234567890".

Definition no_website_link (html : string) : option string := None.

End Scenario.

(** * Properties *)

(** ** Strings, patterns and loops *)

Section Facts.
Import PyStr Re Py.

Lemma lower_app (a b : string) : lower (a ++ b) = lower a ++ lower b.
Proof.
  induction a as [|c a IH]; simpl; [reflexivity|now rewrite IH].
Qed.

Lemma contains_cons (pat : string) (c : ascii) (s : string) :
  contains pat s = true -> contains pat (String c s) = true.
Proof.
  intro H. cbn [contains]. rewrite H. apply orb_true_r.
Qed.

Lemma startswith_app (pat s t : string) :
  startswith pat s = true -> startswith pat (s ++ t) = true.
Proof.
  revert s; induction pat as [|p pat IH]; intros s H; [reflexivity|].
  destruct s as [|c s]; simpl in *; [discriminate|].
  apply andb_true_iff in H as [H1 H2].
  rewrite H1. simpl. now apply IH.
Qed.

Lemma contains_app_r (pat a b : string) :
  contains pat b = true -> contains pat (a ++ b) = true.
Proof.
  intro H. induction a as [|c a IH]; simpl append; [exact H|].
  now apply contains_cons.
Qed.

Lemma contains_app_l (pat a b : string) :
  contains pat a = true -> contains pat (a ++ b) = true.
Proof.
  induction a as [|c a IH]; intro H.
  - destruct pat; simpl in H; [destruct b; reflexivity|discriminate].
  - cbn [contains] in H. apply orb_true_iff in H as [H|H].
    + change (String c a ++ b) with (String c (a ++ b)).
      assert (E : startswith pat (String c a ++ b) = true)
        by now apply startswith_app.
      simpl append in E. cbn [contains]. now rewrite E.
    + simpl append. apply contains_cons. now apply IH.
Qed.

Lemma match_here_lit (w : string) (prev : option ascii) (s : string) :
  match_here (lit w) prev s =
  if startswith w s then Some (String.length w) else None.
Proof.
  revert prev s; induction w as [|c w IH]; intros prev s; [reflexivity|].
  destruct s as [|x s]; [reflexivity|].
  cbn [lit match_here startswith String.length].
  rewrite Ascii.eqb_sym at 1. destruct (Ascii.eqb x c) eqn:E.
  - rewrite Ascii.eqb_sym, E, IH. simpl. now destruct (startswith w s).
  - now rewrite Ascii.eqb_sym, E.
Qed.

(** Searching for a pattern without metacharacters is the substring test. *)
Lemma re_search_lit (w s : string) : re_search (lit w) s = contains w s.
Proof.
  unfold re_search, search. generalize (@None ascii) as prev.
  induction s as [|c s IH]; intro prev.
  - cbn [search_from contains]. rewrite match_here_lit.
    destruct (startswith w EmptyString); reflexivity.
  - cbn [search_from contains]. rewrite match_here_lit.
    destruct (startswith w (String c s)); [reflexivity|]. apply IH.
Qed.

Lemma for_each_modify {S A} (l : list A) (f : A -> M S unit) (g : S -> A -> S) :
  (forall a s, f a s = (Ret tt, g s a)) ->
  forall s, for_each l f s = (Ret tt, fold_left g l s).
Proof.
  intro Hf. induction l as [|a l IH]; intro s; [reflexivity|].
  cbn [for_each fold_left]. unfold bind. now rewrite Hf, IH.
Qed.

End Facts.

(** ** The page scan *)

Section FinderFacts.
Import PyStr Re Py ContactFinder.

Variable session_get : string -> outcome response.
Variable soup_anchors : string -> list anchor.

Local Abbreviation scrape := (_scrape_page_for_emails session_get soup_anchors).
Local Abbreviation scan := (_scan_website session_get soup_anchors).
Local Abbreviation page_of := (page_result session_get soup_anchors).

Lemma scrape_page_result (url : string) : scrape url = Ret (page_of url).
Proof.
  unfold _scrape_page_for_emails, page_result, returning, try_except, bind, await.
  destruct (session_get url) as [resp|e]; [|reflexivity].
  destruct (status resp =? 200)%Z; [|reflexivity].
  cbn [negb]. destruct (text resp) as [html|e]; [|reflexivity].
  rewrite (for_each_modify _ _ (mailto_step url)).
  - rewrite (for_each_modify _ _ (text_step url)); [reflexivity|].
    intros email cs. unfold text_step, bind, get, contacts_append, modify, ret.
    destruct (_is_valid_email email); [|reflexivity].
    now destruct (negb _).
  - intros link cs. unfold mailto_step, contacts_append, modify, ret.
    now destruct (_is_valid_email _).
Qed.

Lemma scan_website_result (base_url : string) :
  scan base_url =
  Ret (flat_map (fun path => page_of (rstrip_slash base_url ++ path)) paths_to_check).
Proof.
  unfold _scan_website, returning.
  rewrite (for_each_modify _ _
             (fun cs path => (cs ++ page_of (rstrip_slash base_url ++ path))%list)).
  - f_equal. generalize paths_to_check as l.
    assert (G : forall l acc,
               fold_left (fun cs path => (cs ++ page_of (rstrip_slash base_url ++ path))%list) l acc
               = (acc ++ flat_map (fun path => page_of (rstrip_slash base_url ++ path)) l)%list).
    { induction l as [|x l IH]; intro acc; cbn [fold_left flat_map].
      - now rewrite app_nil_r.
      - now rewrite IH, app_assoc. }
    intro l. apply G.
  - intros path cs. unfold bind, await, modify. now rewrite scrape_page_result.
Qed.

Local Abbreviation find := (find_contacts session_get soup_anchors).

(** The candidate pool that [find_contacts] ranks. *)
Lemma find_contacts_result (website_url : option string) (podcast_name : string)
    (social_links : option (list string)) :
  find website_url podcast_name social_links =
  let all_contacts :=
    match website_url with
    | Some u =>
        if truthy u
        then flat_map (fun path => page_of (rstrip_slash u ++ path)) paths_to_check
        else []
    | None => []
    end in
  Ret (nth_error (_rank_contacts all_contacts) 0,
       nth_error (_rank_contacts all_contacts) 1).
Proof.
  unfold find_contacts, eval, bind, await, modify, get, ret, _check_directories.
  destruct website_url as [u|]; [destruct (truthy u)|]; cbn [fst snd];
    try rewrite scan_website_result; cbn [fst snd app];
    now rewrite ?app_nil_r.
Qed.

Lemma page_contacts_source (url html : string) :
  Forall (fun c => source_url c = url) (page_contacts soup_anchors url html).
Proof.
  unfold page_contacts.
  assert (T : forall l acc, Forall (fun c => source_url c = url) acc ->
              Forall (fun c => source_url c = url) (fold_left (text_step url) l acc)).
  { induction l as [|x l IH]; intros acc H; cbn [fold_left]; [exact H|].
    apply IH. unfold text_step.
    destruct (_is_valid_email x); [|exact H]. destruct (negb _); [|exact H].
    apply Forall_app; split; [exact H|]. now constructor. }
  assert (L : forall l acc, Forall (fun c => source_url c = url) acc ->
              Forall (fun c => source_url c = url) (fold_left (mailto_step url) l acc)).
  { induction l as [|x l IH]; intros acc H; cbn [fold_left]; [exact H|].
    apply IH. unfold mailto_step.
    destruct (_is_valid_email _); [|exact H].
    apply Forall_app; split; [exact H|]. now constructor. }
  apply T, L. constructor.
Qed.

(** A page yields candidates only when it was fetched, and every candidate
    carries the URL of that page. *)
Lemma page_result_source (url : string) (c : ContactResult) :
  In c (page_of url) -> source_url c = url /\ fetched session_get url.
Proof.
  unfold page_result, fetched. intro H.
  destruct (session_get url) as [resp|e]; [|contradiction].
  destruct (status resp =? 200)%Z eqn:St; [|contradiction].
  destruct (text resp) as [html|e] eqn:Tx; [|contradiction].
  split.
  - pose proof (page_contacts_source url html) as F.
    rewrite Forall_forall in F. now apply F.
  - exists resp, html. repeat split; [|exact Tx]. now apply Z.eqb_eq.
Qed.

End FinderFacts.

(** ** Dictionaries and the dedupe loop *)

Section DedupeFacts.
Import PyStr Re Py ContactFinder.

Lemma dict_get_set_same {V} (k : string) (v : V) (d : dict V) :
  dict_get k (dict_set k v d) = Some v.
Proof.
  induction d as [|[k' v'] d IH]; cbn [dict_set dict_get].
  - now rewrite String.eqb_refl.
  - destruct (String.eqb k k') eqn:E; cbn [dict_get]; now rewrite E.
Qed.

Lemma dict_get_set_other {V} (k k0 : string) (v : V) (d : dict V) :
  k0 <> k -> dict_get k0 (dict_set k v d) = dict_get k0 d.
Proof.
  intro N. induction d as [|[k' v'] d IH]; cbn [dict_set dict_get].
  - apply String.eqb_neq in N. now rewrite N.
  - destruct (String.eqb k k') eqn:E; cbn [dict_get]; [|now rewrite IH].
    apply String.eqb_eq in E. subst k'.
    apply String.eqb_neq in N. now rewrite N.
Qed.

Lemma dict_get_none_keys {V} (k : string) (d : dict V) :
  dict_get k d = None <-> ~ In k (map fst d).
Proof.
  induction d as [|[k' v'] d IH]; cbn [dict_get map fst In]; [tauto|].
  destruct (String.eqb k k') eqn:E.
  - apply String.eqb_eq in E. subst. split; [discriminate|tauto].
  - apply String.eqb_neq in E. rewrite IH. split; [intros H [H'|H']; congruence|tauto].
Qed.

Lemma dict_set_fresh {V} (k : string) (v : V) (d : dict V) :
  dict_get k d = None -> dict_set k v d = (d ++ [(k, v)])%list.
Proof.
  induction d as [|[k' v'] d IH]; cbn [dict_get dict_set app]; [reflexivity|].
  destruct (String.eqb k k'); [discriminate|]. intro H. now rewrite IH.
Qed.

Lemma dict_set_keys_present {V} (k : string) (v v0 : V) (d : dict V) :
  dict_get k d = Some v0 -> map fst (dict_set k v d) = map fst d.
Proof.
  induction d as [|[k' v'] d IH]; cbn [dict_get dict_set map fst]; [discriminate|].
  destruct (String.eqb k k') eqn:E; cbn [map fst]; [reflexivity|].
  intro H. now rewrite IH.
Qed.

Lemma dict_set_In {V} (k : string) (v : V) (d : dict V) (kv : string * V) :
  In kv (dict_set k v d) -> kv = (k, v) \/ In kv d.
Proof.
  induction d as [|[k' v'] d IH]; cbn [dict_set In].
  - intros [H|[]]; auto.
  - destruct (String.eqb k k') eqn:E; cbn [In].
    + apply String.eqb_eq in E. subst k'. intros [H|H]; auto.
    + intros [H|H]; auto. destruct (IH H); auto.
Qed.

Lemma dict_get_In {V} (k : string) (v : V) (d : dict V) :
  dict_get k d = Some v -> In (k, v) d.
Proof.
  induction d as [|[k' v'] d IH]; cbn [dict_get In]; [discriminate|].
  destruct (String.eqb k k') eqn:E.
  - apply String.eqb_eq in E. subst. intro H. left. congruence.
  - auto.
Qed.

Lemma dict_In_get {V} (k : string) (v : V) (d : dict V) :
  NoDup (map fst d) -> In (k, v) d -> dict_get k d = Some v.
Proof.
  induction d as [|[k' v'] d IH]; cbn [dict_get In map fst]; [contradiction|].
  intros ND [H|H].
  - inversion H; subst. now rewrite String.eqb_refl.
  - inversion ND as [|? ? Nin ND']; subst.
    destruct (String.eqb k k') eqn:E; [|now apply IH].
    apply String.eqb_eq in E. subst k'. exfalso. apply Nin.
    change k with (fst (k, v)). now apply in_map.
Qed.

Lemma Qgtb_lt (a b : Q) : Qgtb a b = true <-> (b < a)%Q.
Proof.
  unfold Qgtb. rewrite Qgt_alt. destruct (a ?= b)%Q; split; congruence.
Qed.

Lemma Qgtb_le (a b : Q) : Qgtb a b = false <-> (a <= b)%Q.
Proof.
  unfold Qgtb. rewrite Qle_alt. destruct (a ?= b)%Q; split; congruence.
Qed.

Lemma NoDup_snoc {A} (l : list A) (x : A) :
  NoDup l -> ~ In x l -> NoDup (l ++ [x]).
Proof.
  induction l as [|y l IH]; cbn [app]; intros ND N.
  - constructor; [intros []|constructor].
  - inversion ND as [|? ? Ny ND']; subst. constructor.
    + rewrite in_app_iff. cbn [In]. intros [H|[H|[]]]; [tauto|].
      subst. apply N. now left.
    + apply IH; [exact ND'|]. intro H. apply N. now right.
Qed.

Lemma dedupe_step_ok (seen : dict ContactResult) (c : ContactResult) :
  seen_ok seen -> seen_ok (dedupe_step seen c).
Proof.
  intros [ND F]. unfold dedupe_step.
  assert (S : forall v0, dict_get (email c) seen = Some v0 ->
                seen_ok (dict_set (email c) c seen)).
  { intros v0 G. split.
    - now rewrite (dict_set_keys_present _ _ v0).
    - apply Forall_forall. intros kv H. apply dict_set_In in H as [->|H]; [reflexivity|].
      rewrite Forall_forall in F. now apply F. }
  destruct (dict_get (email c) seen) as [kept|] eqn:G.
  - destruct (Qgtb _ _); [now apply (S kept)|now split].
  - rewrite dict_set_fresh by exact G. split.
    + rewrite map_app. cbn [map fst].
      apply NoDup_snoc; [exact ND|]. now apply dict_get_none_keys.
    + apply Forall_app. split; [exact F|]. now constructor.
Qed.

Lemma dedupe_step_get (seen : dict ContactResult) (c : ContactResult) (e : string) :
  dict_get e (dedupe_step seen c) = best_step e (dict_get e seen) c.
Proof.
  unfold dedupe_step, best_step.
  destruct (String.eqb (email c) e) eqn:E.
  - apply String.eqb_eq in E. subst e.
    destruct (dict_get (email c) seen) as [kept|] eqn:G.
    + destruct (Qgtb _ _); [apply dict_get_set_same|exact G].
    + apply dict_get_set_same.
  - apply String.eqb_neq in E.
    destruct (dict_get (email c) seen) as [kept|].
    + destruct (Qgtb _ _); [|reflexivity].
      apply dict_get_set_other. congruence.
    + apply dict_get_set_other. congruence.
Qed.

Lemma fold_dedupe_get (l : list ContactResult) (seen : dict ContactResult) (e : string) :
  dict_get e (fold_left dedupe_step l seen) = fold_left (best_step e) l (dict_get e seen).
Proof.
  revert seen; induction l as [|c l IH]; intro seen; cbn [fold_left]; [reflexivity|].
  now rewrite IH, dedupe_step_get.
Qed.

Lemma fold_dedupe_ok (l : list ContactResult) (seen : dict ContactResult) :
  seen_ok seen -> seen_ok (fold_left dedupe_step l seen).
Proof.
  revert seen; induction l as [|c l IH]; intros seen H; cbn [fold_left]; [exact H|].
  now apply IH, dedupe_step_ok.
Qed.

Lemma seen_ok_nil : seen_ok [].
Proof. split; constructor. Qed.

(** A contact survives the dedupe step exactly when it is the instance the
    loop holds for its address. *)
Lemma In_dedupe_iff (l : list ContactResult) (c : ContactResult) :
  In c (dedupe l) <-> best_for (email c) l = Some c.
Proof.
  unfold dedupe, dict_values, best_for.
  pose proof (fold_dedupe_ok l [] seen_ok_nil) as [ND F].
  pose proof (fold_dedupe_get l [] (email c)) as G. cbn [dict_get] in G.
  rewrite <- G. split.
  - intro H. apply in_map_iff in H as [[k v] [E H]]. cbn [snd] in E. subst v.
    rewrite Forall_forall in F. pose proof (F _ H) as Ek. cbn [fst snd] in Ek.
    subst k. now apply dict_In_get.
  - intro H. apply dict_get_In in H.
    change c with (snd (email c, c)). now apply in_map.
Qed.

Lemma dedupe_emails_NoDup (l : list ContactResult) : NoDup (map email (dedupe l)).
Proof.
  unfold dedupe, dict_values.
  pose proof (fold_dedupe_ok l [] seen_ok_nil) as [ND F].
  rewrite map_map.
  erewrite map_ext_in; [exact ND|].
  intros kv H. rewrite Forall_forall in F. now apply F.
Qed.

(** What the loop holds for an address: nothing if the address does not
    occur; otherwise an occurrence that beats every earlier one strictly
    and is not beaten by any later one. *)
Lemma best_for_spec (e : string) (l : list ContactResult) :
  match best_for e l with
  | None => forall c', In c' l -> email c' <> e
  | Some c =>
      exists l1 l2,
        l = (l1 ++ c :: l2)%list /\ email c = e /\
        (forall c', In c' l1 -> email c' = e -> (confidence c' < confidence c)%Q) /\
        (forall c', In c' l2 -> email c' = e -> (confidence c' <= confidence c)%Q)
  end.
Proof.
  unfold best_for. induction l as [|x l IH] using rev_ind; [intros c' []|].
  rewrite fold_left_app. cbn [fold_left]. unfold best_step at 1.
  destruct (String.eqb (email x) e) eqn:E.
  - apply String.eqb_eq in E.
    destruct (fold_left (best_step e) l None) as [k|].
    + destruct IH as (l1 & l2 & -> & Ek & Hb & Ha).
      destruct (Qgtb (confidence x) (confidence k)) eqn:G.
      * apply Qgtb_lt in G.
        exists (l1 ++ k :: l2)%list, []. repeat split; [exact E| |intros c' []].
        intros c' Hin Ec. apply in_app_iff in Hin as [Hin|[<-|Hin]].
        -- eapply Qlt_trans; [now apply Hb|exact G].
        -- exact G.
        -- eapply Qle_lt_trans; [now apply Ha|exact G].
      * apply Qgtb_le in G.
        exists l1, (l2 ++ [x])%list. repeat split; [now rewrite <- app_assoc|exact Ek|exact Hb|].
        intros c' Hin Ec. apply in_app_iff in Hin as [Hin|[<-|[]]]; [now apply Ha|exact G].
    + exists l, []. repeat split; [exact E| |intros c' []].
      intros c' Hin Ec. now apply IH in Hin.
  - apply String.eqb_neq in E.
    destruct (fold_left (best_step e) l None) as [k|].
    + destruct IH as (l1 & l2 & -> & Ek & Hb & Ha).
      exists l1, (l2 ++ [x])%list. repeat split; [now rewrite <- app_assoc|exact Ek|exact Hb|].
      intros c' Hin Ec. apply in_app_iff in Hin as [Hin|[<-|[]]]; [now apply Ha|contradiction].
    + intros c' Hin. apply in_app_iff in Hin as [Hin|[<-|[]]]; [now apply IH|exact E].
Qed.

Lemma dedupe_emails (l : list ContactResult) (e : string) :
  In e (map email (dedupe l)) <-> In e (map email l).
Proof.
  split.
  - intro H. apply in_map_iff in H as [c [<- H]]. apply In_dedupe_iff in H.
    pose proof (best_for_spec (email c) l) as S. rewrite H in S.
    destruct S as (l1 & l2 & -> & _). apply in_map, in_elt.
  - intro H. apply in_map_iff in H as [c [<- H]].
    pose proof (best_for_spec (email c) l) as S.
    destruct (best_for (email c) l) as [k|] eqn:B.
    + destruct S as (l1 & l2 & _ & Ek & _). rewrite <- Ek in B.
      apply In_dedupe_iff in B. rewrite <- Ek. now apply in_map.
    + exfalso. now apply (S c).
Qed.

Lemma dedupe_incl (l : list ContactResult) (c : ContactResult) :
  In c (dedupe l) -> In c l.
Proof.
  intro H. apply In_dedupe_iff in H.
  pose proof (best_for_spec (email c) l) as S. rewrite H in S.
  destruct S as (l1 & l2 & -> & _). apply in_elt.
Qed.

(** Without repeated addresses the dedupe step changes nothing. *)
Lemma dedupe_NoDup_id (l : list ContactResult) :
  NoDup (map email l) -> dedupe l = l.
Proof.
  unfold dedupe, dict_values.
  assert (G : forall l seen,
             NoDup (map email l) ->
             (forall c, In c l -> ~ In (email c) (map fst seen)) ->
             fold_left dedupe_step l seen =
             (seen ++ map (fun c => (email c, c)) l)%list).
  { clear l. induction l as [|c l IH]; intros seen ND D; cbn [fold_left map].
    - now rewrite app_nil_r.
    - inversion ND as [|? ? Nc ND']; subst.
      assert (Gc : dict_get (email c) seen = None).
      { apply dict_get_none_keys, D. now left. }
      unfold dedupe_step at 2. rewrite Gc, dict_set_fresh by exact Gc.
      rewrite IH; [now rewrite <- app_assoc|exact ND'|].
      intros c' Hin. rewrite map_app, in_app_iff. cbn [map fst In].
      intros [H|[H|[]]].
      + apply (D c'); [now right|exact H].
      + apply Nc. rewrite H. now apply in_map. }
  intro ND. rewrite G; [|exact ND|intros c _ []].
  cbn [app]. rewrite map_map. cbn [snd]. apply map_id.
Qed.

End DedupeFacts.

(** ** The sort *)

Section SortFacts.
Import PyStr Re Py ContactFinder.

Lemma insert_by_perm {A K} (key : A -> K) (ltb : K -> K -> bool) (x : A) (l : list A) :
  Permutation (x :: l) (insert_by key ltb x l).
Proof.
  induction l as [|y l IH]; cbn [insert_by]; [reflexivity|].
  destruct (ltb (key y) (key x)); [|reflexivity].
  rewrite perm_swap. now apply perm_skip.
Qed.

Lemma sort_by_perm {A K} (key : A -> K) (ltb : K -> K -> bool) (l : list A) :
  Permutation l (sort_by key ltb l).
Proof.
  induction l as [|x l IH]; cbn [sort_by fold_right]; [reflexivity|].
  rewrite <- insert_by_perm. now apply perm_skip.
Qed.

Lemma key_ltb_false (k1 k2 : nat * Q) : key_ltb k2 k1 = false <-> key_le k1 k2.
Proof.
  unfold key_ltb, key_le. destruct (fst k2 =? fst k1)%nat eqn:E.
  - apply Nat.eqb_eq in E. rewrite Qle_alt.
    rewrite <- (Qcompare_antisym (snd k1) (snd k2)).
    destruct (snd k1 ?= snd k2)%Q; cbn [CompOpp]; split;
      try discriminate; try (intros _; right; split; [lia|discriminate]);
      try reflexivity; intros [H|[_ H]]; try lia; congruence.
  - apply Nat.eqb_neq in E. rewrite Nat.ltb_ge. split; [lia|intros [H|[H _]]; lia].
Qed.

Lemma key_ltb_true (k1 k2 : nat * Q) : key_ltb k1 k2 = true -> key_le k1 k2.
Proof.
  unfold key_ltb, key_le. destruct (fst k1 =? fst k2)%nat eqn:E.
  - apply Nat.eqb_eq in E. intro H. right. split; [exact E|].
    apply Qlt_le_weak, Qlt_alt. now destruct (snd k1 ?= snd k2)%Q.
  - rewrite Nat.ltb_lt. auto.
Qed.

Lemma key_le_trans (a b c : nat * Q) : key_le a b -> key_le b c -> key_le a c.
Proof.
  unfold key_le. intros [H1|[H1 Q1]] [H2|[H2 Q2]]; try (left; lia).
  right. split; [lia|]. eapply Qle_trans; eassumption.
Qed.

Lemma insert_by_sorted (x : ContactResult) (l : list ContactResult) :
  StronglySorted (fun a b => key_le (sort_key a) (sort_key b)) l ->
  StronglySorted (fun a b => key_le (sort_key a) (sort_key b))
    (insert_by sort_key key_ltb x l).
Proof.
  induction 1 as [|y l Hs IH Hy]; cbn [insert_by].
  - constructor; constructor.
  - destruct (key_ltb (sort_key y) (sort_key x)) eqn:E.
    + constructor; [exact IH|].
      apply Forall_forall. intros z Hz.
      apply (Permutation_in _ (Permutation_sym (insert_by_perm _ _ x l))) in Hz.
      destruct Hz as [<-|Hz]; [now apply key_ltb_true|].
      rewrite Forall_forall in Hy. now apply Hy.
    + apply key_ltb_false in E. constructor; [now constructor|].
      constructor; [exact E|].
      eapply Forall_impl; [|exact Hy]. intros z Hz. cbv beta in Hz.
      eapply key_le_trans; eassumption.
Qed.

Lemma sort_by_sorted (l : list ContactResult) :
  StronglySorted (fun a b => key_le (sort_key a) (sort_key b))
    (sort_by sort_key key_ltb l).
Proof.
  induction l as [|x l IH]; cbn [sort_by fold_right]; [constructor|].
  now apply insert_by_sorted.
Qed.

Lemma rank_perm (l : list ContactResult) : Permutation (dedupe l) (_rank_contacts l).
Proof. apply sort_by_perm. Qed.

Lemma rank_incl (l : list ContactResult) (c : ContactResult) :
  In c (_rank_contacts l) -> In c l.
Proof.
  intro H. apply dedupe_incl.
  now apply (Permutation_in _ (Permutation_sym (rank_perm l))).
Qed.

Lemma StronglySorted_suffix {A} (R : A -> A -> Prop) (l1 l2 : list A) :
  StronglySorted R (l1 ++ l2) -> StronglySorted R l2.
Proof.
  induction l1 as [|x l1 IH]; cbn [app]; [auto|].
  intro H. apply StronglySorted_inv in H as [H _]. now apply IH.
Qed.

(** In a sorted list an element stands before every element it is not
    allowed to follow. *)
Lemma sorted_precedes {A} (R : A -> A -> Prop) (l : list A) (b g : A) :
  StronglySorted R l -> In b l -> In g l -> ~ R g b -> b <> g -> precedes b g l.
Proof.
  intros Hs Hb Hg N D.
  apply in_split in Hg as (l1 & l3 & ->).
  apply in_app_iff in Hb as [Hb|[Hb|Hb]].
  - apply in_split in Hb as (l0 & l2 & ->).
    exists l0, l2, l3. now rewrite <- app_assoc.
  - congruence.
  - exfalso. apply N.
    apply StronglySorted_suffix in Hs.
    apply StronglySorted_inv in Hs as [_ F].
    rewrite Forall_forall in F. now apply F.
Qed.

End SortFacts.

(** ** Ranking *)

Section Ranking.
Import PyStr Re Py ContactFinder.

(** C2.  The dedupe step of [_rank_contacts] keeps exactly one instance of
    every address of its input.  The instance kept has a strictly higher
    confidence than every earlier instance of the address and is not beaten
    by any later one: an instance replaces the one held only when its
    confidence is strictly higher, so among equals the first stays, with all
    its fields.  The ranked list is a rearrangement of the kept instances.
    Of two candidates with the same address and confidences 0.6 and 0.9,
    in either order, only the 0.9 one is returned, with its own source. *)
Theorem dedupe_keeps_first_best :
  forall contacts : list ContactResult,
    NoDup (map email (dedupe contacts))
    /\ (forall e, In e (map email contacts) <-> In e (map email (dedupe contacts)))
    /\ (forall c, In c (dedupe contacts) ->
          exists l1 l2,
            contacts = (l1 ++ c :: l2)%list
            /\ (forall c', In c' l1 -> email c' = email c ->
                  (confidence c' < confidence c)%Q)
            /\ (forall c', In c' l2 -> email c' = email c ->
                  (confidence c' <= confidence c)%Q))
    /\ Permutation (dedupe contacts) (_rank_contacts contacts)
    /\ (forall seen c kept,
          dict_get (email c) seen = Some kept ->
          (confidence c <= confidence kept)%Q ->
          dedupe_step seen c = seen)
    /\ (forall e u1 t1 u2 t2,
          _rank_contacts [mkContactResult e u1 t1 0.6; mkContactResult e u2 t2 0.9]
            = [mkContactResult e u2 t2 0.9]
          /\ _rank_contacts [mkContactResult e u2 t2 0.9; mkContactResult e u1 t1 0.6]
            = [mkContactResult e u2 t2 0.9]).
Proof.
  intro contacts. split; [apply dedupe_emails_NoDup|].
  split; [intro e; symmetry; apply dedupe_emails|].
  split.
  { intros c H. apply In_dedupe_iff in H.
    pose proof (best_for_spec (email c) contacts) as S. rewrite H in S.
    destruct S as (l1 & l2 & E & _ & Hb & Ha). now exists l1, l2. }
  split; [apply rank_perm|].
  split.
  { intros seen c kept G L. unfold dedupe_step. rewrite G.
    apply Qgtb_le in L. now rewrite L. }
  intros e u1 t1 u2 t2.
  unfold _rank_contacts, dedupe, dedupe_step.
  cbn [fold_left dict_get dict_set email confidence].
  rewrite !String.eqb_refl. cbn [dict_get dict_set email confidence].
  change (Qgtb 0.9 0.6) with true. change (Qgtb 0.6 0.9) with false.
  cbn [dict_set]. rewrite ?String.eqb_refl. split; reflexivity.
Qed.

(** C3, as the code has it.  The list returned by [_rank_contacts] is sorted
    ascending by the key (type_priority, -confidence), with booking=0,
    host=1, producer=2, general=3.  Hence a booking candidate and a general
    candidate that are both in the returned list stand in this order,
    whatever their confidences; when no address occurs twice in the input
    this holds of any two candidates of the input, and booking/0.5 is
    returned before general/0.95 when their addresses differ. *)
Theorem rank_sorted_by_priority :
  forall contacts : list ContactResult,
    StronglySorted (fun a b => key_le (sort_key a) (sort_key b)) (_rank_contacts contacts)
    /\ (type_priority "booking" = 0 /\ type_priority "host" = 1 /\
        type_priority "producer" = 2 /\ type_priority "general" = 3)
    /\ (forall b g,
          In b (_rank_contacts contacts) -> In g (_rank_contacts contacts) ->
          contact_type b = "booking" -> contact_type g = "general" ->
          precedes b g (_rank_contacts contacts))
    /\ (NoDup (map email contacts) ->
        forall b g,
          In b contacts -> In g contacts ->
          contact_type b = "booking" -> contact_type g = "general" ->
          precedes b g (_rank_contacts contacts))
    /\ (forall e1 u1 e2 u2,
          e1 <> e2 ->
          _rank_contacts [mkContactResult e1 u1 "general" 0.95;
                          mkContactResult e2 u2 "booking" 0.5]
          = [mkContactResult e2 u2 "booking" 0.5;
             mkContactResult e1 u1 "general" 0.95]).
Proof.
  intro contacts.
  assert (P : forall b g,
             In b (_rank_contacts contacts) -> In g (_rank_contacts contacts) ->
             contact_type b = "booking" -> contact_type g = "general" ->
             precedes b g (_rank_contacts contacts)).
  { intros b g Hb Hg Tb Tg.
    apply (sorted_precedes (fun a b => key_le (sort_key a) (sort_key b)));
      [apply sort_by_sorted|exact Hb|exact Hg| |congruence].
    unfold key_le, sort_key. rewrite Tb, Tg. cbn. intros [H|[H _]]; lia. }
  split; [apply sort_by_sorted|].
  split; [repeat split|].
  split; [exact P|].
  split.
  - intros ND b g Hb Hg. apply P.
    + apply (Permutation_in _ (rank_perm contacts)). now rewrite dedupe_NoDup_id.
    + apply (Permutation_in _ (rank_perm contacts)). now rewrite dedupe_NoDup_id.
  - intros e1 u1 e2 u2 N.
    unfold _rank_contacts. rewrite dedupe_NoDup_id.
    + reflexivity.
    + cbn [map email]. constructor; [|constructor; [intros []|constructor]].
      intros [H|[]]. congruence.
Qed.

(** C3, as stated, fails when the two candidates share an address: the
    dedupe step runs first and keeps the general, more confident instance,
    so the booking candidate is not in the returned list at all. *)
Lemma booking_dropped_before_ranking :
  In Scenario.booking_low [Scenario.booking_low; Scenario.general_high]
  /\ In Scenario.general_high [Scenario.booking_low; Scenario.general_high]
  /\ contact_type Scenario.booking_low = "booking"
  /\ contact_type Scenario.general_high = "general"
  /\ _rank_contacts [Scenario.booking_low; Scenario.general_high]
     = [Scenario.general_high]
  /\ ~ precedes Scenario.booking_low Scenario.general_high
         (_rank_contacts [Scenario.booking_low; Scenario.general_high]).
Proof.
  assert (E : _rank_contacts [Scenario.booking_low; Scenario.general_high]
              = [Scenario.general_high]) by (vm_compute; reflexivity).
  repeat split; try (cbn; tauto); try exact E.
  rewrite E. intros (l1 & l2 & l3 & H).
  apply (f_equal (@List.length _)) in H.
  rewrite !length_app in H. cbn [List.length] in H.
  rewrite length_app in H. cbn [List.length] in H. lia.
Qed.

End Ranking.

(** ** The finder *)

Section FinderClaims.
Import PyStr Re Py ContactFinder.

Variable session_get : string -> outcome response.
Variable soup_anchors : string -> list anchor.

Local Abbreviation scrape := (_scrape_page_for_emails session_get soup_anchors).
Local Abbreviation scan := (_scan_website session_get soup_anchors).
Local Abbreviation find := (find_contacts session_get soup_anchors).
Local Abbreviation page_of := (page_result session_get soup_anchors).
Local Abbreviation was_fetched := (fetched session_get).

Lemma append_empty_r (s : string) : s ++ EmptyString = s.
Proof. induction s as [|c s IH]; cbn [append]; [reflexivity|now rewrite IH]. Qed.

Lemma not_fetched_page (url : string) : ~ was_fetched url -> page_of url = [].
Proof.
  unfold fetched, page_result. intro N.
  destruct (session_get url) as [resp|e]; [|reflexivity].
  destruct (status resp =? 200)%Z eqn:St; [|reflexivity].
  destruct (text resp) as [html|e] eqn:Tx; [|reflexivity].
  exfalso. apply N. exists resp, html. repeat split; [|exact Tx]. now apply Z.eqb_eq.
Qed.

Lemma scan_member (base_url : string) (c : ContactResult) :
  In c (flat_map (fun path => page_of (rstrip_slash base_url ++ path)) paths_to_check) ->
  exists path, In path paths_to_check /\ In c (page_of (rstrip_slash base_url ++ path)).
Proof.
  intro H. apply in_flat_map in H as (path & Hp & Hc). now exists path.
Qed.

(** C1.  Every candidate built by [_scrape_page_for_emails] carries as
    [source_url] the URL of the page that was being read, and that page was
    fetched with status 200; so does every candidate gathered by
    [_scan_website], whose URL is the site root followed by one of the
    probed paths, and so do the primary and backup slots of
    [find_contacts].  The client refuses the empty URL (aiohttp raises
    InvalidURL for it, which the page scan catches), hence no [source_url]
    is empty. *)
Theorem source_url_is_fetched_page (e0 : exn)
    (client_refuses_empty : session_get EmptyString = Raise e0) :
  (forall url, exists cs,
      scrape url = Ret cs /\
      forall c, In c cs ->
        source_url c = url /\ source_url c <> EmptyString /\ was_fetched url)
  /\ (forall base_url, exists cs,
        scan base_url = Ret cs /\
        forall c, In c cs ->
          source_url c <> EmptyString /\ was_fetched (source_url c) /\
          exists path, In path paths_to_check /\
                       source_url c = rstrip_slash base_url ++ path)
  /\ (forall website_url podcast_name social_links, exists primary backup,
        find website_url podcast_name social_links = Ret (primary, backup) /\
        forall c, primary = Some c \/ backup = Some c ->
          source_url c <> EmptyString /\ was_fetched (source_url c) /\
          exists base_url path,
            website_url = Some base_url /\ In path paths_to_check /\
            source_url c = rstrip_slash base_url ++ path).
Proof.
  assert (NE : forall url, was_fetched url -> url <> EmptyString).
  { intros url (resp & html & G & _) ->. congruence. }
  assert (P : forall url c, In c (page_of url) ->
                source_url c = url /\ source_url c <> EmptyString /\ was_fetched url).
  { intros url c H. apply page_result_source in H as [E F].
    repeat split; [exact E| |exact F]. rewrite E. now apply NE. }
  assert (S : forall base_url c,
             In c (flat_map (fun path => page_of (rstrip_slash base_url ++ path))
                     paths_to_check) ->
             source_url c <> EmptyString /\ was_fetched (source_url c) /\
             exists path, In path paths_to_check /\
                          source_url c = rstrip_slash base_url ++ path).
  { intros base_url c H. apply scan_member in H as (path & Hp & Hc).
    apply P in Hc as (E & N & F). repeat split; [exact N|now rewrite E|].
    now exists path. }
  split; [|split].
  - intro url. exists (page_of url). split; [apply scrape_page_result|apply P].
  - intro base_url. eexists. split; [apply scan_website_result|apply S].
  - intros website_url podcast_name social_links.
    rewrite find_contacts_result. cbv zeta. do 2 eexists. split; [reflexivity|].
    intros c H.
    assert (Hin : In c (_rank_contacts
                          match website_url with
                          | Some u =>
                              if truthy u
                              then flat_map (fun path => page_of (rstrip_slash u ++ path))
                                     paths_to_check
                              else []
                          | None => []
                          end)).
    { destruct H as [H|H]; eapply nth_error_In; exact H. }
    apply rank_incl in Hin.
    destruct website_url as [u|]; [|contradiction].
    destruct (truthy u); [|contradiction].
    apply S in Hin as (N & F & path & Hp & E).
    repeat split; [exact N|exact F|]. now exists u, path.
Qed.

(** C7.  [_scrape_page_for_emails] returns a list for every URL and never
    raises: when the request raises, when the status is not 200 and when
    reading the body raises, the list is empty.  [_scan_website] runs the
    page scan on each of its ten paths whatever the other pages did, and
    returns all their candidates together. *)
Theorem page_failures_are_absorbed :
  (forall url, exists cs, scrape url = Ret cs)
  /\ (forall url e, session_get url = Raise e -> scrape url = Ret [])
  /\ (forall url resp,
        session_get url = Ret resp -> status resp <> 200%Z -> scrape url = Ret [])
  /\ (forall url resp e,
        session_get url = Ret resp -> text resp = Raise e -> scrape url = Ret [])
  /\ (forall base_url, exists pages,
        Forall2 (fun path page => scrape (rstrip_slash base_url ++ path) = Ret page)
                paths_to_check pages
        /\ scan base_url = Ret (List.concat pages))
  /\ (forall base_url, exists cs,
        scan base_url = Ret cs /\
        forall path page c,
          In path paths_to_check ->
          scrape (rstrip_slash base_url ++ path) = Ret page ->
          In c page -> In c cs).
Proof.
  split; [intro url; eexists; apply scrape_page_result|].
  split.
  { intros url e H. rewrite scrape_page_result. unfold page_result. now rewrite H. }
  split.
  { intros url resp H N. rewrite scrape_page_result. unfold page_result. rewrite H.
    apply Z.eqb_neq in N. now rewrite N. }
  split.
  { intros url resp e H T. rewrite scrape_page_result. unfold page_result.
    rewrite H, T. now destruct (status resp =? 200)%Z. }
  split.
  - intro base_url.
    exists (map (fun path => page_of (rstrip_slash base_url ++ path)) paths_to_check).
    split.
    + generalize paths_to_check as l.
      induction l as [|x l IH]; cbn [map];
        [constructor|constructor; [apply scrape_page_result|exact IH]].
    + rewrite scan_website_result, flat_map_concat_map. reflexivity.
  - intro base_url. eexists. split; [apply scan_website_result|].
    intros path page c Hp Hs Hc. rewrite scrape_page_result in Hs.
    apply in_flat_map. exists path. split; [exact Hp|]. congruence.
Qed.

(** C10.  [_check_directories] returns the empty list for every podcast
    name, so [find_contacts] without a website (None, or the empty string)
    returns (None, None) for every name and every list of social links. *)
Theorem directories_contribute_nothing :
  (forall podcast_name, _check_directories podcast_name = Ret [])
  /\ (forall podcast_name social_links,
        find None podcast_name social_links = Ret (None, None))
  /\ (forall podcast_name social_links,
        find (Some EmptyString) podcast_name social_links = Ret (None, None)).
Proof.
  split; [reflexivity|].
  split; intros; rewrite find_contacts_result; reflexivity.
Qed.

(** C4.  On a site of which only the homepage can be fetched, the homepage
    holding the mail link [mailto:press@show.com] with text Press and the
    addresses press@show.com (in the link) and info@show.com (in the text),
    [find_contacts] returns press@show.com as primary, typed booking with
    confidence 0.9, and info@show.com as backup, typed general with
    confidence 0.6, both with the homepage URL as source.  info@show.com is
    valid for [_is_valid_email], whose deny-list has no info@ entry; the
    deny-list of [_is_valid_contact_email] has one. *)
Theorem homepage_scenario
    (base_url podcast_name : string) (social_links : option (list string))
    (html : string)
    (site_given : truthy base_url = true)
    (homepage_ok :
       session_get (rstrip_slash base_url) = Ret (mkResponse 200 (Ret html)))
    (others_fail :
       forall path, In path paths_to_check -> path <> EmptyString ->
                    ~ was_fetched (rstrip_slash base_url ++ path))
    (one_link : soup_anchors html = [mkAnchor "mailto:press@show.com" "Press"])
    (two_addresses : findall email_pattern html = ["press@show.com"; "info@show.com"]) :
  find (Some base_url) podcast_name social_links =
    Ret (Some (mkContactResult "press@show.com" (rstrip_slash base_url) "booking" 0.9),
         Some (mkContactResult "info@show.com" (rstrip_slash base_url) "general" 0.6))
  /\ _is_valid_email "info@show.com" = true
  /\ ~ In "info@" skip_patterns
  /\ In "info@" PodcastDiscovery.contact_skip_patterns.
Proof.
  split; [|split; [reflexivity|split; [|cbn; tauto]]].
  - rewrite find_contacts_result. cbv zeta. rewrite site_given.
    assert (E : flat_map (fun path => page_of (rstrip_slash base_url ++ path))
                  paths_to_check
                = page_contacts soup_anchors (rstrip_slash base_url) html).
    { unfold paths_to_check. cbn [flat_map].
      rewrite !not_fetched_page
        by (apply others_fail; [cbn; tauto|discriminate]).
      cbn [app]. rewrite app_nil_r, append_empty_r.
      unfold page_result. rewrite homepage_ok. reflexivity. }
    rewrite E. unfold page_contacts. rewrite one_link, two_addresses.
    vm_compute. reflexivity.
  - cbn. intros H. repeat (destruct H as [H|H]; [discriminate|]). exact H.
Qed.

End FinderClaims.

Section FinderWitnesses.
Import PyStr Re Py ContactFinder.

(** C1 at the scenario site: its client refuses the empty URL, and the
    candidates of its homepage carry the homepage URL. *)
Lemma source_url_at_scenario :
  Scenario.session_get EmptyString = Raise (ClientError "cannot connect")
  /\ exists cs,
       _scrape_page_for_emails Scenario.session_get Scenario.soup_anchors
         Scenario.homepage_url = Ret cs
       /\ forall c, In c cs ->
            source_url c = Scenario.homepage_url
            /\ source_url c <> EmptyString
            /\ fetched Scenario.session_get Scenario.homepage_url.
Proof.
  split; [reflexivity|].
  exact (proj1 (source_url_is_fetched_page Scenario.session_get Scenario.soup_anchors
                  (ClientError "cannot connect") eq_refl)
               Scenario.homepage_url).
Defined.

(** C4 at the scenario site, entered with a trailing slash. *)
Lemma homepage_scenario_at_show_com :
  truthy "https://show.com/" = true
  /\ Scenario.session_get (rstrip_slash "https://show.com/")
     = Ret (mkResponse 200 (Ret Scenario.homepage_html))
  /\ Scenario.soup_anchors Scenario.homepage_html
     = [mkAnchor "mailto:press@show.com" "Press"]
  /\ findall email_pattern Scenario.homepage_html = ["press@show.com"; "info@show.com"]
  /\ find_contacts Scenario.session_get Scenario.soup_anchors
       (Some "https://show.com/") "The Show" None
     = Ret (Some (mkContactResult "press@show.com" "https://show.com" "booking" 0.9),
            Some (mkContactResult "info@show.com" "https://show.com" "general" 0.6)).
Proof.
  split; [reflexivity|].
  split; [reflexivity|].
  split; [reflexivity|].
  split; [vm_compute; reflexivity|].
  refine (proj1 (homepage_scenario Scenario.session_get Scenario.soup_anchors
                   "https://show.com/" "The Show" None Scenario.homepage_html
                   eq_refl eq_refl _ eq_refl _)).
  - intros path Hin Hne (resp & html & G & _).
    cbn [paths_to_check In] in Hin.
    repeat (destruct Hin as [<-|Hin]; [try (vm_compute in G; discriminate)|]).
    + now apply Hne.
    + exact Hin.
  - vm_compute. reflexivity.
Defined.

End FinderWitnesses.

(** ** Validation and classification *)

Section ValidatorClaims.
Import PyStr Re Py ContactFinder.

Lemma denied_is_invalid (email pattern : string) :
  In pattern skip_patterns -> contains pattern (lower email) = true ->
  _is_valid_email email = false.
Proof.
  intros Hin Hc. unfold _is_valid_email.
  destruct (negb (truthy email) || negb (contains "@" email)); [reflexivity|].
  assert (E : existsb (fun p => contains p (lower email)) skip_patterns = true).
  { apply existsb_exists. now exists pattern. }
  cbv zeta. now rewrite E.
Qed.

(** C5.  [_is_valid_email] returns False for every address whose
    lower-cased form contains an entry of the deny-list: noreply@example.com,
    privacy@site.com and photo.png@cdn.site.com are rejected, as is every
    string containing one of the image extensions and every address at
    wixpress.com.  It returns True for booking@showname.com, which
    [_classify_email] classifies as booking in every context. *)
Theorem validator_rejection_set :
  (forall email pattern,
      In pattern skip_patterns -> contains pattern (lower email) = true ->
      _is_valid_email email = false)
  /\ _is_valid_email "noreply@example.com" = false
  /\ _is_valid_email "privacy@site.com" = false
  /\ _is_valid_email "photo.png@cdn.site.com" = false
  /\ (forall email ext,
        In ext [".png"; ".jpg"; ".gif"; ".svg"] ->
        contains ext (lower email) = true ->
        _is_valid_email email = false)
  /\ (forall local_part, _is_valid_email (local_part ++ "@wixpress.com") = false)
  /\ _is_valid_email "booking@showname.com" = true
  /\ (forall context, _classify_email "booking@showname.com" context = "booking").
Proof.
  split; [exact denied_is_invalid|].
  do 3 (split; [reflexivity|]).
  split.
  { intros email ext Hin. apply denied_is_invalid.
    cbn [In] in Hin. unfold skip_patterns. cbn [In]. intuition. }
  split.
  { intro local_part. apply (denied_is_invalid _ "wixpress").
    - unfold skip_patterns. cbn [In]. intuition.
    - rewrite lower_app. now apply contains_app_r. }
  split; [reflexivity|].
  intro context. unfold _classify_email, booking_patterns. cbn [map existsb].
  rewrite re_search_lit.
  change ("booking@showname.com" ++ " " ++ context)
    with ("booking@showname.com " ++ context).
  rewrite lower_app, contains_app_l; reflexivity.
Qed.

(** C6.  [_classify_email] returns one of booking, host, producer and
    general, by the first rule that applies: booking when the lower-cased
    text "email context" contains one of the booking keywords; otherwise
    host when the lower-cased address contains one of the webmail domains
    after an at-sign; otherwise producer when the text contains producer or
    production; otherwise general.  So jane@gmail.com found with the text
    Booking inquiries is booking, although with no text it is host. *)
Theorem classifier_first_match :
  forall email context : string,
    _classify_email email context =
      (if existsb (fun keyword => contains keyword (lower (email ++ " " ++ context)))
            ["booking"; "guest"; "podcast"; "media"; "inquir"; "press"; "interview"]
       then "booking"
       else if existsb (fun domain => contains ("@" ++ domain) (lower email))
                 ["gmail.com"; "yahoo.com"; "outlook.com"; "icloud.com"; "me.com"]
       then "host"
       else if contains "producer" (lower (email ++ " " ++ context))
               || contains "production" (lower (email ++ " " ++ context))
       then "producer"
       else "general")
    /\ In (_classify_email email context) ["booking"; "host"; "producer"; "general"]
    /\ _classify_email "jane@gmail.com" "Booking inquiries" = "booking"
    /\ _classify_email "jane@gmail.com" EmptyString = "host".
Proof.
  intros email context.
  assert (E : _classify_email email context =
      (if existsb (fun keyword => contains keyword (lower (email ++ " " ++ context)))
            ["booking"; "guest"; "podcast"; "media"; "inquir"; "press"; "interview"]
       then "booking"
       else if existsb (fun domain => contains ("@" ++ domain) (lower email))
                 ["gmail.com"; "yahoo.com"; "outlook.com"; "icloud.com"; "me.com"]
       then "host"
       else if contains "producer" (lower (email ++ " " ++ context))
               || contains "production" (lower (email ++ " " ++ context))
       then "producer"
       else "general")).
  { unfold _classify_email, booking_patterns, host_patterns.
    cbn [map existsb]. rewrite !re_search_lit. reflexivity. }
  split; [exact E|].
  split; [|split; reflexivity].
  rewrite E. cbn [In].
  destruct (existsb _ _); [tauto|].
  destruct (existsb _ _); [tauto|].
  destruct (_ || _); tauto.
Qed.

End ValidatorClaims.

(** ** Dedupe keys *)

Section DedupeKeyClaims.
Import PyStr Re Py PodcastDiscovery.

Variable urlparse_netloc : string -> outcome string.
Variable md5_hexdigest : string -> string.

Local Abbreviation key := (_generate_dedupe_key urlparse_netloc md5_hexdigest).

Lemma match_here_plus (cls : ascii -> bool) (prev : option ascii) (s : string) :
  match_here [plus cls] prev s =
  if (1 <=? run cls None s)%nat then Some (run cls None s) else None.
Proof.
  unfold plus. cbn [match_here].
  destruct (run cls None s) as [|k]; [reflexivity|].
  cbn [Nat.leb option_map]. now rewrite Nat.add_0_r.
Qed.

Lemma match_here_lit_plus (w : string) (cls : ascii -> bool)
    (prev : option ascii) (s : string) :
  match_here (lit w ++ [plus cls])%list prev s =
  if startswith w s
  then
    if (1 <=? run cls None (drop (String.length w) s))%nat
    then Some (String.length w + run cls None (drop (String.length w) s))
    else None
  else None.
Proof.
  revert prev s; induction w as [|c w IH]; intros prev s.
  - cbn [lit app startswith String.length drop Nat.add].
    rewrite match_here_plus. now destruct s.
  - destruct s as [|x s]; [reflexivity|].
    cbn [lit app match_here startswith String.length drop].
    rewrite Ascii.eqb_sym. destruct (Ascii.eqb x c); [|reflexivity].
    rewrite IH. cbn [andb].
    destruct (startswith w s); [|reflexivity].
    now destruct (1 <=? _)%nat.
Qed.

Lemma take_run (cls : ascii -> bool) (s : string) :
  all_chars cls (take (run cls None s) s) = true
  /\ s = take (run cls None s) s ++ drop (run cls None s) s.
Proof.
  induction s as [|c s [IH1 IH2]]; [split; reflexivity|].
  cbn [run option_map]. destruct (cls c) eqn:E; [|split; reflexivity].
  cbn [take drop all_chars append]. rewrite E, IH1. split; [reflexivity|].
  now rewrite <- IH2.
Qed.

Lemma startswith_split (w s : string) :
  startswith w s = true -> s = w ++ drop (String.length w) s.
Proof.
  revert s; induction w as [|c w IH]; intros s H.
  - now destruct s.
  - destruct s as [|x s]; [discriminate|]. cbn [startswith] in H.
    apply andb_true_iff in H as [H1 H2]. apply Ascii.eqb_eq in H1. subst x.
    cbn [String.length drop append]. now rewrite <- IH.
Qed.

Lemma take_app_length (w r : string) (n : nat) :
  take (String.length w + n) (w ++ r) = w ++ take n r.
Proof.
  induction w as [|c w IH]; cbn [String.length Nat.add append take];
    [reflexivity|now rewrite IH].
Qed.

Lemma drop_app_length (w r : string) : drop (String.length w) (w ++ r) = r.
Proof.
  induction w as [|c w IH]; cbn [String.length append drop]; [now destruct r|exact IH].
Qed.

(** What a search for a literal followed by a repeated class returns: the
    literal and the longest run of the class after it, somewhere in the
    subject. *)
Lemma search_lit_plus (w : string) (cls : ascii -> bool) (s m : string) :
  search (lit w ++ [plus cls])%list s = Some m ->
  exists before run_text rest,
    s = before ++ w ++ run_text ++ rest
    /\ m = w ++ run_text
    /\ group1 w m = run_text
    /\ run_text <> EmptyString
    /\ all_chars cls run_text = true.
Proof.
  unfold search. generalize (@None ascii) as prev.
  induction s as [|c s IH]; intro prev; cbn [search_from];
    rewrite match_here_lit_plus.
  - destruct (startswith w EmptyString) eqn:Sw; [|discriminate].
    destruct (1 <=? _)%nat eqn:R; [|discriminate].
    exfalso. destruct w; cbn in R; discriminate.
  - destruct (startswith w (String c s)) eqn:Sw.
    + destruct (1 <=? _)%nat eqn:R.
      * intro H. injection H as <-.
        apply startswith_split in Sw.
        remember (drop (String.length w) (String c s)) as r eqn:Er.
        clear IH Er. rewrite Sw. clear Sw.
        destruct (take_run cls r) as [A S'].
        exists EmptyString, (take (run cls None r) r), (drop (run cls None r) r).
        rewrite take_app_length.
        repeat split.
        -- cbn [append]. now rewrite <- S'.
        -- unfold group1. apply drop_app_length.
        -- clear A S'. destruct r as [|x r']; [discriminate R|].
           cbn [run option_map] in *. destruct (cls x); [|discriminate R].
           cbn [take]. discriminate.
        -- exact A.
      * intro H. apply IH in H as (before & rt & rest & -> & Hm).
        now exists (String c before), rt, rest.
    + intro H. apply IH in H as (before & rt & rest & -> & Hm).
      now exists (String c before), rt, rest.
Qed.

Lemma filter_chars_all (p : ascii -> bool) (s : string) :
  all_chars p (filter_chars p s) = true.
Proof.
  induction s as [|c s IH]; [reflexivity|]. cbn [filter_chars].
  destruct (p c) eqn:E; [|exact IH]. cbn [all_chars]. now rewrite E.
Qed.

Lemma take_length (n : nat) (s : string) : String.length (take n s) <= n.
Proof.
  revert s; induction n as [|n IH]; intros [|c s]; cbn [take String.length]; try lia.
  specialize (IH s). lia.
Qed.

Lemma startswith_self_app (w t : string) : startswith w (w ++ t) = true.
Proof.
  induction w as [|c w IH]; cbn [append startswith]; [reflexivity|].
  now rewrite Ascii.eqb_refl, IH.
Qed.

Lemma run_app_all (cls : ascii -> bool) (a rest : string) :
  all_chars cls a = true ->
  match rest with String c _ => cls c = false | EmptyString => True end ->
  run cls None (a ++ rest) = String.length a.
Proof.
  intros A R. induction a as [|c a IH]; cbn [append String.length].
  - destruct rest as [|c r]; [reflexivity|]. cbn [run]. now rewrite R.
  - cbn [all_chars] in A. apply andb_true_iff in A as [A1 A2].
    cbn [run option_map]. now rewrite A1, IH.
Qed.

Lemma run_stop (cls : ascii -> bool) (r : string) :
  match drop (run cls None r) r with
  | String c _ => cls c = false
  | EmptyString => True
  end.
Proof.
  induction r as [|c r IH]; [exact I|].
  cbn [run option_map]. destruct (cls c) eqn:E; [exact IH|exact E].
Qed.

(** The pattern matches at the start of [s] exactly when [w] followed by a
    [cls] character stands there. *)
Lemma match_here_occurs (w : string) (cls : ascii -> bool)
    (prev : option ascii) (s : string) :
  (exists n, match_here (lit w ++ [plus cls])%list prev s = Some n)
  <-> occurs_after w cls s EmptyString.
Proof.
  rewrite match_here_lit_plus. unfold occurs_after. cbn [append]. split.
  - intros [n H]. destruct (startswith w s) eqn:Sw; [|discriminate].
    apply startswith_split in Sw.
    destruct (drop (String.length w) s) as [|c r]; [discriminate H|].
    cbn [run option_map] in H. destruct (cls c) eqn:C; [|discriminate H].
    now exists c, r.
  - intros (c & r & -> & C).
    rewrite startswith_self_app, drop_app_length. cbn [run option_map].
    rewrite C. cbn [Nat.leb]. eexists. reflexivity.
Qed.

Lemma occurs_after_cons (w : string) (cls : ascii -> bool) (x : ascii) (s b : string) :
  occurs_after w cls (String x s) (String x b) <-> occurs_after w cls s b.
Proof.
  unfold occurs_after. cbn [append].
  split; intros (c & r & E & C); exists c, r; split; congruence.
Qed.

Lemma occurs_after_head (w : string) (cls : ascii -> bool) (x : ascii) (s b : string) :
  occurs_after w cls (String x s) b ->
  b = EmptyString \/ exists b', b = String x b' /\ occurs_after w cls s b'.
Proof.
  destruct b as [|y b]; [auto|]. intro H. right.
  assert (y = x) by (destruct H as (c & r & E & _); cbn [append] in E; congruence).
  subst y. exists b. split; [reflexivity|]. now apply occurs_after_cons in H.
Qed.

(** A search that finds nothing: [w] followed by a [cls] character stands
    nowhere in the subject. *)
Lemma search_none_occurs (w : string) (cls : ascii -> bool) (s : string) :
  search (lit w ++ [plus cls])%list s = None <->
  forall b, ~ occurs_after w cls s b.
Proof.
  unfold search. generalize (@None ascii) as prev.
  induction s as [|x s IH]; intro prev; cbn [search_from].
  - destruct (match_here _ prev EmptyString) as [n|] eqn:M.
    + split; [discriminate|]. intro H. exfalso. apply (H EmptyString).
      apply (match_here_occurs w cls prev). now exists n.
    + split; [|reflexivity]. intros _ b O.
      destruct b as [|y b]; [|destruct O as (c & r & E & _); discriminate E].
      apply (match_here_occurs w cls prev) in O as [n O]. congruence.
  - destruct (match_here _ prev (String x s)) as [n|] eqn:M.
    + split; [discriminate|]. intro H. exfalso. apply (H EmptyString).
      apply (match_here_occurs w cls prev). now exists n.
    + rewrite IH. split.
      * intros H b O. destruct b as [|y b].
        -- apply (match_here_occurs w cls prev) in O as [n O]. congruence.
        -- apply occurs_after_head in O as [E|(b' & E & O)]; [discriminate E|].
           injection E as _ ->. now apply (H b').
      * intros H b O. apply (H (String x b)). now apply occurs_after_cons.
Qed.

(** A search that finds something returns [w] and the capture described by
    [first_capture]. *)
Lemma search_first_capture (w : string) (cls : ascii -> bool)
    (s before run_text rest : string) :
  first_capture w cls s before run_text rest ->
  search (lit w ++ [plus cls])%list s = Some (w ++ run_text).
Proof.
  unfold search. generalize (@None ascii) as prev.
  revert s; induction before as [|x before IH];
    intros s prev (E & N & A & R & Lm).
  - cbn [append] in E. subst s.
    assert (M : match_here (lit w ++ [plus cls])%list prev (w ++ run_text ++ rest)
                = Some (String.length w + String.length run_text)).
    { rewrite match_here_lit_plus, startswith_self_app, drop_app_length.
      rewrite (run_app_all cls run_text rest A R).
      destruct run_text; [congruence|reflexivity]. }
    destruct (w ++ run_text ++ rest) as [|c t] eqn:S0; cbn [search_from];
      rewrite M; rewrite <- S0; f_equal;
      rewrite take_app_length; f_equal;
      rewrite <- (Nat.add_0_r (String.length run_text)), take_app_length;
      (destruct rest; cbn [take]; apply append_empty_r).
  - cbn [append] in E. subst s. cbn [search_from].
    destruct (match_here _ prev (String x (before ++ w ++ run_text ++ rest)))
      as [n|] eqn:M.
    + exfalso.
      assert (O : occurs_after w cls (String x (before ++ w ++ run_text ++ rest))
                    EmptyString)
        by (apply (match_here_occurs w cls prev); now exists n).
      apply Lm in O. cbn [String.length] in O. lia.
    + apply IH. repeat split; try assumption.
      intros b O. apply (occurs_after_cons w cls x) in O. apply Lm in O.
      cbn [String.length] in O. lia.
Qed.

Lemma search_some_capture (w : string) (cls : ascii -> bool) (s m : string) :
  search (lit w ++ [plus cls])%list s = Some m ->
  exists before run_text rest,
    first_capture w cls s before run_text rest /\ m = w ++ run_text.
Proof.
  unfold search. generalize (@None ascii) as prev.
  assert (Here : forall prev s n,
             match_here (lit w ++ [plus cls])%list prev s = Some n ->
             exists run_text rest,
               first_capture w cls s EmptyString run_text rest
               /\ take n s = w ++ run_text).
  { intros prev s0 n M. rewrite match_here_lit_plus in M.
    destruct (startswith w s0) eqn:Sw; [|discriminate].
    destruct (1 <=? _)%nat eqn:R; [|discriminate]. injection M as <-.
    apply startswith_split in Sw.
    remember (drop (String.length w) s0) as r eqn:Er. clear Er.
    destruct (take_run cls r) as [A S'].
    exists (take (run cls None r) r), (drop (run cls None r) r).
    split; [|rewrite Sw; apply take_app_length].
    repeat split.
    - cbn [append]. now rewrite <- S'.
    - destruct r as [|c r']; [discriminate R|].
      cbn [run option_map] in *. destruct (cls c); [|discriminate R].
      cbn [take]. discriminate.
    - exact A.
    - apply run_stop.
    - intros b _. cbn [String.length]. lia. }
  induction s as [|x s IH]; intro prev; cbn [search_from].
  - destruct (match_here _ prev EmptyString) as [n|] eqn:M; [|discriminate].
    intros [= <-]. destruct (Here _ _ _ M) as (rt & rest & F & T).
    now exists EmptyString, rt, rest.
  - destruct (match_here _ prev (String x s)) as [n|] eqn:M.
    + intros [= <-]. destruct (Here _ _ _ M) as (rt & rest & F & T).
      now exists EmptyString, rt, rest.
    + intro H. apply IH in H as (before & rt & rest & (E & N & A & R & Lm) & ->).
      exists (String x before), rt, rest. split; [|reflexivity].
      repeat split; try assumption.
      * cbn [append]. now rewrite <- E.
      * intros b O. destruct b as [|y b].
        -- exfalso. apply (match_here_occurs w cls prev) in O as [n O]. congruence.
        -- apply occurs_after_head in O as [E0|(b' & E0 & O)]; [discriminate E0|].
           injection E0 as _ ->. apply Lm in O. cbn [String.length]. lia.
Qed.

(** C8.  For a URL that [urlparse] accepts, [_generate_dedupe_key] applies
    its rules in order and the first that applies decides.  If /id followed
    by a digit stands in the URL, the key is apple: followed by the whole run
    of digits after the first such /id.  Otherwise, if /show/ followed by a
    letter or digit stands in the URL, the key is spotify: followed by the
    whole run of letters and digits after the first such /show/.  Otherwise
    a non-empty network location gives web:<netloc>|<name>, the name being
    the lower-cased show name cut down to a-z and 0-9.  Otherwise the key is
    hash: followed by the first twelve characters of the MD5 hex digest of
    URL and name.  The cases are those of the two searches of the code:
    a search succeeds exactly in the first case of its rule and returns the
    literal followed by the run. *)
Theorem dedupe_key_priority (url show_name netloc : string)
    (parsed : urlparse_netloc url = Ret netloc) :
  (forall before digits rest,
      first_capture "/id" is_digit url before digits rest ->
      key url show_name = Ret ("apple:" ++ digits))
  /\ ((forall b, ~ occurs_after "/id" is_digit url b) ->
      forall before ident rest,
        first_capture "/show/" is_ascii_alnum url before ident rest ->
        key url show_name = Ret ("spotify:" ++ ident))
  /\ ((forall b, ~ occurs_after "/id" is_digit url b) ->
      (forall b, ~ occurs_after "/show/" is_ascii_alnum url b) ->
      netloc <> EmptyString ->
      key url show_name =
        Ret ("web:" ++ netloc ++ "|" ++
             filter_chars (fun c => is_ascii_lower c || is_digit c) (lower show_name))
      /\ all_chars (fun c => is_ascii_lower c || is_digit c)
           (filter_chars (fun c => is_ascii_lower c || is_digit c) (lower show_name))
         = true)
  /\ ((forall b, ~ occurs_after "/id" is_digit url b) ->
      (forall b, ~ occurs_after "/show/" is_ascii_alnum url b) ->
      netloc = EmptyString ->
      key url show_name = Ret ("hash:" ++ take 12 (md5_hexdigest (url ++ show_name)))
      /\ String.length (take 12 (md5_hexdigest (url ++ show_name))) <= 12)
  /\ ((exists before digits rest, first_capture "/id" is_digit url before digits rest)
      \/ (forall b, ~ occurs_after "/id" is_digit url b))
  /\ ((exists before ident rest,
         first_capture "/show/" is_ascii_alnum url before ident rest)
      \/ (forall b, ~ occurs_after "/show/" is_ascii_alnum url b))
  /\ (forall m, search apple_re url = Some m <->
        exists before digits rest,
          first_capture "/id" is_digit url before digits rest /\ m = "/id" ++ digits)
  /\ (forall m, search spotify_re url = Some m <->
        exists before ident rest,
          first_capture "/show/" is_ascii_alnum url before ident rest
          /\ m = "/show/" ++ ident).
Proof.
  assert (Iff : forall w cls m,
             search (lit w ++ [plus cls])%list url = Some m <->
             exists before run_text rest,
               first_capture w cls url before run_text rest /\ m = w ++ run_text).
  { intros w cls m. split; [apply search_some_capture|].
    intros (before & rt & rest & F & ->). now apply (search_first_capture w cls url before rt rest). }
  assert (Ex : forall w cls,
             (exists before run_text rest, first_capture w cls url before run_text rest)
             \/ (forall b, ~ occurs_after w cls url b)).
  { intros w cls. destruct (search (lit w ++ [plus cls])%list url) as [m|] eqn:S0.
    - left. apply search_some_capture in S0 as (before & rt & rest & F & _).
      now exists before, rt, rest.
    - right. now apply search_none_occurs. }
  unfold _generate_dedupe_key. rewrite parsed.
  split; [|split; [|split; [|split; [|split; [|split; [|split]]]]]].
  - intros before digits rest F.
    apply (search_first_capture "/id" is_digit) in F.
    change (lit "/id" ++ [plus is_digit])%list with apple_re in F. rewrite F.
    unfold group1. now rewrite drop_app_length.
  - intros Na before ident rest F.
    apply search_none_occurs in Na.
    change (lit "/id" ++ [plus is_digit])%list with apple_re in Na. rewrite Na.
    apply (search_first_capture "/show/" is_ascii_alnum) in F.
    change (lit "/show/" ++ [plus is_ascii_alnum])%list with spotify_re in F. rewrite F.
    unfold group1. now rewrite drop_app_length.
  - intros Na Ns N.
    apply search_none_occurs in Na, Ns.
    change (lit "/id" ++ [plus is_digit])%list with apple_re in Na.
    change (lit "/show/" ++ [plus is_ascii_alnum])%list with spotify_re in Ns.
    rewrite Na, Ns. destruct netloc; [congruence|]. cbn [truthy].
    split; [reflexivity|apply filter_chars_all].
  - intros Na Ns ->.
    apply search_none_occurs in Na, Ns.
    change (lit "/id" ++ [plus is_digit])%list with apple_re in Na.
    change (lit "/show/" ++ [plus is_ascii_alnum])%list with spotify_re in Ns.
    rewrite Na, Ns. cbn [truthy]. split; [reflexivity|apply take_length].
  - apply Ex.
  - apply Ex.
  - intro m. apply (Iff "/id" is_digit).
  - intro m. apply (Iff "/show/" is_ascii_alnum).
Qed.

End DedupeKeyClaims.

Section DedupeKeyWitness.
Import PyStr Re Py PodcastDiscovery.

(** C8 at an Apple Podcasts URL: the numeric identifier decides, although
    the URL has a network location, and the key carries all of its
    digits. *)
Lemma dedupe_key_of_apple_url :
  Scenario.netloc_of Scenario.apple_url = Ret "podcasts.apple.com"
  /\ search apple_re Scenario.apple_url = Some "/id1234567890"
  /\ _generate_dedupe_key Scenario.netloc_of Scenario.digest_of
       Scenario.apple_url "The Show" = Ret "apple:1234567890".
Proof.
  assert (S0 : search apple_re Scenario.apple_url = Some "/id1234567890")
    by (vm_compute; reflexivity).
  split; [reflexivity|]. split; [exact S0|].
  pose proof (dedupe_key_priority Scenario.netloc_of Scenario.digest_of
                Scenario.apple_url "The Show" "podcasts.apple.com" eq_refl)
    as (K & _ & _ & _ & _ & _ & A & _).
  apply A in S0 as (before & digits & rest & F & E).
  injection E as <-.
  exact (K before "1234567890" rest F).
Defined.

End DedupeKeyWitness.

(** ** Enrichment *)

Section EnrichClaims.
Import PyStr Re Py PodcastDiscovery.

Variable session_get : string -> outcome ContactFinder.response.
Variable soup_anchors : string -> list ContactFinder.anchor.
Variable soup_find_website_link : string -> option string.

Local Abbreviation enrich :=
  (enrich_podcast session_get soup_anchors soup_find_website_link).

Lemma for_each_returns {S A} (l : list A) (f : A -> M S unit) :
  (forall a s, exists s', f a s = (Ret tt, s')) ->
  forall s, exists s', for_each l f s = (Ret tt, s').
Proof.
  intro Hf. induction l as [|a l IH]; intro s; cbn [for_each].
  - now exists s.
  - unfold bind. destruct (Hf a s) as [s1 ->]. apply IH.
Qed.

Lemma try_except_pass {S} (body : M S unit) (s : S) :
  exists s', try_except body (fun _ => ret tt) s = (Ret tt, s').
Proof.
  unfold try_except, ret. destruct (body s) as [[[]|e] s']; now exists s'.
Qed.

Lemma find_website_returns (podcast : PodcastDiscoveryResult) :
  exists found, _find_website session_get soup_find_website_link podcast = Ret found.
Proof.
  unfold _find_website.
  destruct (apple_podcast_url podcast) as [u|]; [|now exists None].
  destruct (truthy u); [|now exists None].
  unfold eval, try_except, bind, await, ret.
  destruct (session_get u) as [resp|e]; [|now exists None].
  destruct (ContactFinder.status resp =? 200)%Z; [|now exists None].
  destruct (ContactFinder.text resp) as [html|e]; [|now exists None].
  destruct (soup_find_website_link html) as [h|]; eexists; reflexivity.
Qed.

Lemma find_emails_returns (website_url : string) :
  exists emails, _find_emails session_get soup_anchors website_url = Ret emails.
Proof.
  unfold _find_emails, returning.
  match goal with
  | |- context [for_each ?l ?f ?s] =>
      destruct (for_each_returns l f (fun a s0 => try_except_pass _ s0) s) as [s' ->]
  end.
  now eexists.
Qed.

(** The podcast that [enrich_podcast] returns: its argument, with the
    website possibly looked up, and with the entries found written in. *)
Lemma enrich_result (podcast : PodcastDiscoveryResult) :
  exists p1 emails,
    (p1 = podcast \/ exists found, p1 = set_website_url found podcast)
    /\ enrich podcast = Ret (apply_emails emails p1).
Proof.
  assert (Stage : forall p : PodcastDiscoveryResult,
    exists emails,
      match
        bind get (fun p0 =>
          match website_url p0 with
          | None => ret tt
          | Some site =>
              if truthy site then
                bind (await (_find_emails session_get soup_anchors site)) (fun emails =>
                  match emails with
                  | e0 :: rest =>
                      bind (modify (set_primary_email (Some (entry_email e0)))) (fun _ =>
                      bind (modify (set_primary_email_source_url (Some (entry_source e0)))) (fun _ =>
                        match rest with
                        | e1 :: _ =>
                            bind (modify (set_backup_email (Some (entry_email e1)))) (fun _ =>
                              modify (set_backup_email_source_url (Some (entry_source e1))))
                        | [] => ret tt
                        end))
                  | [] => ret tt
                  end)
              else ret tt
          end) p
      with
      | (Ret _, s) => Ret s
      | (Raise e, _) => Raise e
      end = Ret (apply_emails emails p)).
  { intro p. unfold bind at 1, get.
    destruct (website_url p) as [site|];
      [destruct (truthy site)|]; try (now exists []).
    unfold bind at 1, await. destruct (find_emails_returns site) as [emails ->].
    exists emails. now destruct emails as [|e0 [|e1 rest]]. }
  unfold enrich_podcast, returning. unfold bind at 1. unfold bind at 1, get.
  destruct (negb (truthy_opt (website_url podcast)) && truthy (primary_platform_url podcast)).
  - unfold bind at 1, await. destruct (find_website_returns podcast) as [found ->].
    unfold modify.
    destruct (Stage (set_website_url found podcast)) as [emails E].
    exists (set_website_url found podcast), emails. split; [eauto|exact E].
  - unfold ret at 1. destruct (Stage podcast) as [emails E].
    exists podcast, emails. split; [now left|exact E].
Qed.

(** C9.  [enrich_podcast] returns its argument with at most the fields
    website_url, primary_email, primary_email_source_url, backup_email and
    backup_email_source_url changed; every other field is as it was.  Each
    e-mail field and its source are either left as they were or both set, so
    a podcast whose pairs are both set or both unset (as every podcast built
    by the search steps is, with all four unset) stays so: there is never an
    e-mail without its source URL. *)
Theorem enrich_touches_only_contact_fields (podcast : PodcastDiscoveryResult) :
  exists enriched,
    enrich podcast = Ret enriched
    /\ (show_name enriched = show_name podcast
        /\ host_name enriched = host_name podcast
        /\ primary_platform_url enriched = primary_platform_url podcast
        /\ apple_podcast_url enriched = apple_podcast_url podcast
        /\ spotify_url enriched = spotify_url podcast
        /\ show_description enriched = show_description podcast
        /\ recent_episode_titles enriched = recent_episode_titles podcast
        /\ recent_guests enriched = recent_guests podcast
        /\ discovery_source enriched = discovery_source podcast
        /\ risk_signals enriched = risk_signals podcast
        /\ dedupe_key enriched = dedupe_key podcast)
    /\ ((primary_email enriched = primary_email podcast
         /\ primary_email_source_url enriched = primary_email_source_url podcast)
        \/ (exists e u, primary_email enriched = Some e
                        /\ primary_email_source_url enriched = Some u))
    /\ ((backup_email enriched = backup_email podcast
         /\ backup_email_source_url enriched = backup_email_source_url podcast)
        \/ (exists e u, backup_email enriched = Some e
                        /\ backup_email_source_url enriched = Some u))
    /\ (email_pairs_ok podcast -> email_pairs_ok enriched).
Proof.
  destruct (enrich_result podcast) as (p1 & emails & Hp1 & ->).
  eexists. split; [reflexivity|].
  assert (G : forall q : PodcastDiscoveryResult,
             q = apply_emails emails p1 ->
             (show_name q = show_name podcast
              /\ host_name q = host_name podcast
              /\ primary_platform_url q = primary_platform_url podcast
              /\ apple_podcast_url q = apple_podcast_url podcast
              /\ spotify_url q = spotify_url podcast
              /\ show_description q = show_description podcast
              /\ recent_episode_titles q = recent_episode_titles podcast
              /\ recent_guests q = recent_guests podcast
              /\ discovery_source q = discovery_source podcast
              /\ risk_signals q = risk_signals podcast
              /\ dedupe_key q = dedupe_key podcast)
             /\ ((primary_email q = primary_email podcast
                  /\ primary_email_source_url q = primary_email_source_url podcast)
                 \/ (exists e u, primary_email q = Some e
                                 /\ primary_email_source_url q = Some u))
             /\ ((backup_email q = backup_email podcast
                  /\ backup_email_source_url q = backup_email_source_url podcast)
                 \/ (exists e u, backup_email q = Some e
                                 /\ backup_email_source_url q = Some u))).
  { intros q ->.
    destruct Hp1 as [->|[found ->]]; destruct emails as [|e0 [|e1 rest]];
      cbn; (split; [now repeat split|]); split; eauto. }
  destruct (G _ eq_refl) as (F & HP & HB).
  split; [exact F|]. split; [exact HP|]. split; [exact HB|].
  intros [OP OB]. split.
  - destruct HP as [[-> ->]|(e & u & -> & ->)]; [exact OP|split; discriminate].
  - destruct HB as [[-> ->]|(e & u & -> & ->)]; [exact OB|split; discriminate].
Qed.

End EnrichClaims.

Section EnrichWitness.
Import PyStr Re Py PodcastDiscovery.

(** C9 at a podcast as the search step builds it, on the scenario site: the
    four e-mail fields start unset, and the pairs are well formed after the
    enrichment. *)
Lemma enrich_fresh_podcast :
  email_pairs_ok Scenario.fresh_podcast
  /\ exists enriched,
       enrich_podcast Scenario.session_get Scenario.soup_anchors
         Scenario.no_website_link Scenario.fresh_podcast = Ret enriched
       /\ email_pairs_ok enriched.
Proof.
  assert (O : email_pairs_ok Scenario.fresh_podcast)
    by (split; split; reflexivity).
  split; [exact O|].
  destruct (enrich_touches_only_contact_fields
              Scenario.session_get Scenario.soup_anchors Scenario.no_website_link
              Scenario.fresh_podcast)
    as (enriched & E & _ & _ & _ & P).
  exists enriched. split; [exact E|exact (P O)].
Defined.

(** The same run, computed: the mail link of the homepage becomes the
    primary e-mail with the homepage as its source; info@show.com is denied
    by [_is_valid_contact_email], so there is no backup. *)
Example enrich_fresh_podcast_value :
  enrich_podcast Scenario.session_get Scenario.soup_anchors
    Scenario.no_website_link Scenario.fresh_podcast
  = Ret (set_primary_email_source_url (Some Scenario.homepage_url)
           (set_primary_email (Some "press@show.com") Scenario.fresh_podcast)).
Proof. vm_compute. reflexivity. Qed.

End EnrichWitness.

Section DedupeKeyExamples.
Import PyStr Re Py PodcastDiscovery.

Example key_apple_before_spotify :
  _generate_dedupe_key (fun _ => Ret "example.com") Scenario.digest_of
    "https://example.com/show/abc123/id42" "Any"
  = Ret "apple:42".
Proof. vm_compute. reflexivity. Qed.

Example key_spotify :
  _generate_dedupe_key (fun _ => Ret "open.spotify.com") Scenario.digest_of
    "https://open.spotify.com/show/4rOoJ6Egrf8K2IrywzwOMk?si=1" "Any"
  = Ret "spotify:4rOoJ6Egrf8K2IrywzwOMk".
Proof. vm_compute. reflexivity. Qed.

Example key_web :
  _generate_dedupe_key (fun _ => Ret "feeds.example.com") Scenario.digest_of
    "https://feeds.example.com/rss" "The Show: Season 2!"
  = Ret "web:feeds.example.com|theshowseason2".
Proof. vm_compute. reflexivity. Qed.

Example key_hash :
  _generate_dedupe_key (fun _ => Ret EmptyString) Scenario.digest_of
    EmptyString "The Show"
  = Ret "hash:9e107d9d372b".
Proof. vm_compute. reflexivity. Qed.

Example key_of_rejected_url :
  _generate_dedupe_key (fun _ => Raise (ValueError "Invalid IPv6 URL")) Scenario.digest_of
    "https://[bad/id42" "Any"
  = Raise (ValueError "Invalid IPv6 URL").
Proof. reflexivity. Qed.

End DedupeKeyExamples.

(** * Further properties of the two modules *)

(** ** Ranking again *)

Section RankingMore.
Import PyStr Re Py ContactFinder.

Lemma sort_by_sorted_id (l : list ContactResult) :
  StronglySorted (fun a b => key_le (sort_key a) (sort_key b)) l ->
  sort_by sort_key key_ltb l = l.
Proof.
  induction 1 as [|x l Hs IH Hx]; [reflexivity|].
  cbn [sort_by fold_right]. fold (sort_by sort_key key_ltb l). rewrite IH.
  destruct l as [|y l']; [reflexivity|]. cbn [insert_by].
  apply Forall_inv in Hx. apply key_ltb_false in Hx. now rewrite Hx.
Qed.

Lemma rank_emails_NoDup (l : list ContactResult) : NoDup (map email (_rank_contacts l)).
Proof.
  apply (Permutation_NoDup (Permutation_map email (rank_perm l))).
  apply dedupe_emails_NoDup.
Qed.

(** X1.  Ranking a ranked list changes nothing. *)
Theorem rank_idempotent (contacts : list ContactResult) :
  _rank_contacts (_rank_contacts contacts) = _rank_contacts contacts.
Proof.
  unfold _rank_contacts at 1.
  rewrite dedupe_NoDup_id by apply rank_emails_NoDup.
  apply sort_by_sorted_id, sort_by_sorted.
Qed.

Lemma rank_nil_iff (l : list ContactResult) : _rank_contacts l = [] <-> l = [].
Proof.
  split; [|intros ->; reflexivity].
  intro H. destruct l as [|c l]; [reflexivity|]. exfalso.
  assert (I : In (email c) (map email (dedupe (c :: l)))).
  { apply dedupe_emails. now left. }
  apply in_map_iff in I as (x & _ & I).
  apply (Permutation_in _ (rank_perm (c :: l))) in I. now rewrite H in I.
Qed.

Lemma rank_emails (l : list ContactResult) (e : string) :
  In e (map email (_rank_contacts l)) <-> In e (map email l).
Proof.
  split; intro H.
  - apply dedupe_emails.
    exact (Permutation_in _ (Permutation_sym (Permutation_map email (rank_perm l))) H).
  - apply dedupe_emails in H.
    exact (Permutation_in _ (Permutation_map email (rank_perm l)) H).
Qed.

(** The first two entries of a ranked list, as [find_contacts] reads
    them. *)
Lemma rank_slots (l : list ContactResult) :
  (nth_error (_rank_contacts l) 0 = None <-> l = [])
  /\ (nth_error (_rank_contacts l) 0 = None -> nth_error (_rank_contacts l) 1 = None)
  /\ (nth_error (_rank_contacts l) 1 = None <->
      forall c c', In c l -> In c' l -> email c = email c')
  /\ (forall cp cb,
        nth_error (_rank_contacts l) 0 = Some cp ->
        nth_error (_rank_contacts l) 1 = Some cb ->
        email cp <> email cb /\ key_le (sort_key cp) (sort_key cb)).
Proof.
  pose proof (rank_nil_iff l) as N.
  pose proof (rank_emails_NoDup l) as D.
  pose proof (sort_by_sorted (dedupe l)) as S. fold (_rank_contacts l) in S.
  pose proof (rank_emails l) as E.
  destruct (_rank_contacts l) as [|a [|b r]]; cbn [nth_error].
  - split; [tauto|]. split; [tauto|]. split; [|intros; discriminate].
    split; [|reflexivity]. intros _ c c' Hc. rewrite (proj1 N eq_refl) in Hc. contradiction.
  - split; [split; [discriminate|intro L; now pose proof (proj2 N L)]|].
    split; [discriminate|]. split; [|intros; discriminate].
    split; [|reflexivity]. intros _ c c' Hc Hc'.
    assert (A : forall x, In x l -> email x = email a).
    { intros x Hx. apply (in_map email) in Hx. apply E in Hx.
      cbn in Hx. intuition. }
    now rewrite (A c), (A c').
  - split; [split; [discriminate|intro L; now pose proof (proj2 N L)]|].
    split; [discriminate|]. split.
    + split; [discriminate|]. intro H. exfalso.
      cbn [map] in D. inversion D as [|? ? Na _]; subst. apply Na. left.
      assert (Ia : In (email a) (map email l)) by (apply E; cbn; auto).
      assert (Ib : In (email b) (map email l)) by (apply E; cbn; auto).
      apply in_map_iff in Ia as (xa & Ea & Ia). apply in_map_iff in Ib as (xb & Eb & Ib).
      rewrite <- Ea, <- Eb. now apply H.
    + intros cp cb [= <-] [= <-]. split.
      * cbn [map] in D. inversion D as [|? ? Na _]; subst. intro H. apply Na. now left.
      * apply StronglySorted_inv in S as [_ F]. now apply Forall_inv in F.
Qed.

End RankingMore.

Section FinderSlots.
Import PyStr Re Py ContactFinder.

Variable session_get : string -> outcome response.
Variable soup_anchors : string -> list anchor.

(** X2.  [find_contacts] on a site returns the first two entries of the
    ranked pool that [_scan_website] gathers: the primary is entry 0 and the
    backup entry 1 of [_rank_contacts] of the pool, each None when the
    ranked pool is too short.  So the primary is missing exactly when the
    pool is empty, the backup exactly when the pool holds at most one
    address; a backup never comes without a primary, never has the
    primary's address, and never sorts before the primary. *)
Theorem primary_and_backup_slots
    (base_url podcast_name : string) (social_links : option (list string))
    (site_given : truthy base_url = true) :
  exists pool primary backup,
    _scan_website session_get soup_anchors base_url = Ret pool
    /\ find_contacts session_get soup_anchors (Some base_url) podcast_name social_links
       = Ret (primary, backup)
    /\ primary = nth_error (_rank_contacts pool) 0
    /\ backup = nth_error (_rank_contacts pool) 1
    /\ (forall c, primary = Some c \/ backup = Some c -> In c pool)
    /\ (primary = None <-> pool = [])
    /\ (primary = None -> backup = None)
    /\ (backup = None <-> forall c c', In c pool -> In c' pool -> email c = email c')
    /\ (forall cp cb, primary = Some cp -> backup = Some cb ->
          email cp <> email cb /\ key_le (sort_key cp) (sort_key cb)).
Proof.
  rewrite scan_website_result, find_contacts_result. cbv zeta. rewrite site_given.
  do 3 eexists. split; [reflexivity|]. split; [reflexivity|].
  split; [reflexivity|]. split; [reflexivity|].
  split.
  - intros c [H|H]; apply nth_error_In in H; now apply rank_incl in H.
  - apply rank_slots.
Qed.

End FinderSlots.

Section FinderSlotsWitness.
Import PyStr Re Py ContactFinder.

(** X2 at the scenario site. *)
Lemma primary_and_backup_at_scenario :
  truthy Scenario.homepage_url = true
  /\ exists pool primary backup,
       _scan_website Scenario.session_get Scenario.soup_anchors Scenario.homepage_url
       = Ret pool
       /\ find_contacts Scenario.session_get Scenario.soup_anchors
            (Some Scenario.homepage_url) "The Show" None = Ret (primary, backup)
       /\ primary = nth_error (_rank_contacts pool) 0
       /\ backup = nth_error (_rank_contacts pool) 1
       /\ (forall c, primary = Some c \/ backup = Some c -> In c pool)
       /\ (primary = None <-> pool = [])
       /\ (primary = None -> backup = None)
       /\ (backup = None <-> forall c c', In c pool -> In c' pool -> email c = email c')
       /\ (forall cp cb, primary = Some cp -> backup = Some cb ->
             email cp <> email cb /\ key_le (sort_key cp) (sort_key cb)).
Proof.
  split; [reflexivity|].
  exact (primary_and_backup_slots Scenario.session_get Scenario.soup_anchors
           Scenario.homepage_url "The Show" None eq_refl).
Defined.

End FinderSlotsWitness.

(** ** What a page scan stores *)

Section PageCandidates.
Import PyStr Re Py ContactFinder.

Lemma lower_char_idem (c : ascii) : lower_char (lower_char c) = lower_char c.
Proof.
  destruct c as [[] [] [] [] [] [] [] []]; vm_compute; reflexivity.
Qed.

Lemma lower_idem (s : string) : lower (lower s) = lower s.
Proof.
  induction s as [|c s IH]; cbn [lower]; [reflexivity|].
  now rewrite lower_char_idem, IH.
Qed.

Lemma contains_at_lower (s : string) :
  contains "@" s = true -> contains "@" (lower s) = true.
Proof.
  induction s as [|c s IH]; [discriminate|].
  cbn [contains lower startswith]. intro H.
  apply orb_true_iff in H as [H|H].
  - rewrite andb_true_r in H. apply Ascii.eqb_eq in H. subst c. reflexivity.
  - rewrite (IH H). apply orb_true_r.
Qed.

Lemma classify_closed (e context : string) :
  In (_classify_email e context) ["booking"; "host"; "producer"; "general"].
Proof.
  unfold _classify_email. cbn [In].
  destruct (existsb _ booking_patterns); [tauto|].
  destruct (existsb _ host_patterns); [tauto|].
  destruct (_ || _); tauto.
Qed.

Lemma valid_email_facts (e : string) :
  _is_valid_email e = true ->
  contains "@" e = true
  /\ (forall pattern, In pattern skip_patterns -> contains pattern (lower e) = false)
  /\ re_match email_format e = true.
Proof.
  unfold _is_valid_email.
  destruct (truthy e); [|discriminate]. cbn [negb orb].
  destruct (contains "@" e); [|discriminate]. cbn [negb]. cbv zeta.
  destruct (existsb _ skip_patterns) eqn:X; [discriminate|].
  destruct (re_match email_format e); [|discriminate]. intros _.
  repeat split. intros pattern Hin.
  destruct (contains pattern (lower e)) eqn:C; [|reflexivity].
  assert (T : existsb (fun p => contains p (lower e)) skip_patterns = true).
  { apply existsb_exists. now exists pattern. }
  congruence.
Qed.

Lemma stored_ok_new (e url t : string) (q : Q) :
  _is_valid_email e = true ->
  In t ["booking"; "host"; "producer"; "general"] ->
  ((q = 0.9%Q /\ t = "booking") \/ (q = 0.7%Q /\ t <> "booking") \/ q = 0.6%Q) ->
  stored_ok (mkContactResult (lower e) url t q).
Proof.
  intros V T C. apply valid_email_facts in V as (A & D & _).
  unfold stored_ok. cbn [contact_type confidence email].
  repeat split; [exact T|exact C|apply lower_idem|now apply contains_at_lower|exact D].
Qed.

Lemma page_contacts_stored_ok (soup_anchors : string -> list anchor) (url html : string) :
  Forall stored_ok (page_contacts soup_anchors url html).
Proof.
  unfold page_contacts.
  assert (T : forall l acc, Forall stored_ok acc ->
              Forall stored_ok (fold_left (text_step url) l acc)).
  { induction l as [|x l IH]; intros acc H; cbn [fold_left]; [exact H|].
    apply IH. unfold text_step.
    destruct (_is_valid_email x) eqn:V; [|exact H]. destruct (negb _); [|exact H].
    apply Forall_app; split; [exact H|]. constructor; [|constructor].
    apply stored_ok_new; [exact V|apply classify_closed|auto]. }
  assert (L : forall l acc, Forall stored_ok acc ->
              Forall stored_ok (fold_left (mailto_step url) l acc)).
  { induction l as [|x l IH]; intros acc H; cbn [fold_left]; [exact H|].
    apply IH. unfold mailto_step.
    destruct (_is_valid_email _) eqn:V; [|exact H]. cbv zeta.
    apply Forall_app; split; [exact H|]. constructor; [|constructor].
    apply stored_ok_new; [exact V|apply classify_closed|].
    destruct (String.eqb _ "booking") eqn:B.
    - left. split; [reflexivity|]. now apply String.eqb_eq.
    - right. left. split; [reflexivity|]. now apply String.eqb_neq. }
  apply T, L. constructor.
Qed.

End PageCandidates.

Section PageCandidatesClaims.
Import PyStr Re Py ContactFinder.

Variable session_get : string -> outcome response.
Variable soup_anchors : string -> list anchor.

(** X3.  Every candidate that [_scrape_page_for_emails] returns has one of
    the four contact types; its confidence is 0.9 with type booking, 0.7
    with another type, or 0.6, hence between 0 and 1; its address is in
    lower case, contains an at-sign and contains no entry of the
    deny-list of [_is_valid_email]. *)
Theorem page_candidates_well_formed (url : string) :
  exists cs,
    _scrape_page_for_emails session_get soup_anchors url = Ret cs
    /\ forall c, In c cs ->
         In (contact_type c) ["booking"; "host"; "producer"; "general"]
         /\ ((confidence c = 0.9%Q /\ contact_type c = "booking")
             \/ (confidence c = 0.7%Q /\ contact_type c <> "booking")
             \/ confidence c = 0.6%Q)
         /\ (0 <= confidence c /\ confidence c <= 1)%Q
         /\ lower (email c) = email c
         /\ contains "@" (email c) = true
         /\ (forall pattern, In pattern skip_patterns ->
               contains pattern (email c) = false).
Proof.
  exists (page_result session_get soup_anchors url).
  split; [apply scrape_page_result|].
  intros c H.
  assert (O : stored_ok c).
  { unfold page_result in H.
    destruct (session_get url) as [resp|e]; [|contradiction].
    destruct (status resp =? 200)%Z; [|contradiction].
    destruct (text resp) as [html|e]; [|contradiction].
    pose proof (page_contacts_stored_ok soup_anchors url html) as F.
    rewrite Forall_forall in F. now apply F. }
  destruct O as (T & C & L & A & D).
  repeat split; try assumption;
    destruct C as [[E _]|[[E _]|E]]; rewrite E; vm_compute; discriminate.
Qed.

(** X4.  On one page an address read from the text is stored only if no
    earlier candidate of the page has it: a candidate of confidence 0.6
    never repeats the address of a candidate before it in the list that
    [_scrape_page_for_emails] returns. *)
Theorem text_address_not_repeated (url : string) :
  exists cs,
    _scrape_page_for_emails session_get soup_anchors url = Ret cs
    /\ forall l1 c l2,
         cs = (l1 ++ c :: l2)%list -> confidence c = 0.6%Q ->
         ~ In (email c) (map email l1).
Proof.
  exists (page_result session_get soup_anchors url).
  split; [apply scrape_page_result|].
  unfold page_result.
  destruct (session_get url) as [resp|e]; [|intros [|? ?] ? ? ?; discriminate].
  destruct (status resp =? 200)%Z; [|intros [|? ?] ? ? ?; discriminate].
  destruct (text resp) as [html|e]; [|intros [|? ?] ? ? ?; discriminate].
  unfold page_contacts.
  set (Inv := fun acc : list ContactResult =>
                forall l1 c l2, acc = (l1 ++ c :: l2)%list -> confidence c = 0.6%Q ->
                                ~ In (email c) (map email l1)).
  assert (T : forall l acc, Inv acc -> Inv (fold_left (text_step url) l acc)).
  { induction l as [|x l IH]; intros acc H; cbn [fold_left]; [exact H|].
    apply IH. unfold text_step.
    destruct (_is_valid_email x); [|exact H].
    destruct (existsb _ acc) eqn:X; cbn [negb]; [exact H|].
    intros l1 c l2 E Q.
    destruct l2 as [|y l2 _] using rev_ind.
    - apply app_inj_tail in E as [-> <-]. cbn [email].
      intro I. apply in_map_iff in I as (z & Ez & Iz).
      assert (existsb (fun c => String.eqb (email c) (lower x)) l1 = true).
      { apply existsb_exists. exists z. split; [exact Iz|]. now apply String.eqb_eq. }
      congruence.
    - rewrite app_comm_cons, app_assoc in E. apply app_inj_tail in E as [-> _].
      now apply (H l1 c l2). }
  assert (L : forall l acc,
              Forall (fun c => confidence c <> 0.6%Q) acc ->
              Forall (fun c => confidence c <> 0.6%Q) (fold_left (mailto_step url) l acc)).
  { induction l as [|x l IH]; intros acc H; cbn [fold_left]; [exact H|].
    apply IH. unfold mailto_step.
    destruct (_is_valid_email _); [|exact H]. cbv zeta.
    apply Forall_app; split; [exact H|]. constructor; [|constructor].
    cbn [confidence]. destruct (String.eqb _ _); discriminate. }
  apply T. intros l1 c l2 E Q. exfalso.
  pose proof (L (filter (fun a => re_search mailto_re (href a)) (soup_anchors html)) []
                (Forall_nil _)) as F.
  rewrite E in F. apply Forall_app in F as [_ F]. apply Forall_inv in F. contradiction.
Qed.

End PageCandidatesClaims.

(** ** What the matcher accepts *)

Section MatcherFacts.
Import PyStr Re Py.

Lemma match_here_bos (p' : regex) (s : string) :
  match_here (Bos :: p') None s = match_here p' None s.
Proof. reflexivity. Qed.

Lemma match_here_chr_inv (cls : ascii -> bool) (p' : regex)
    (prev : option ascii) (s : string) (n : nat) :
  match_here (Chr cls :: p') prev s = Some n ->
  exists x s' m,
    s = String x s' /\ cls x = true /\ match_here p' (Some x) s' = Some m /\ n = S m.
Proof.
  cbn [match_here]. destruct s as [|x s']; [discriminate|].
  destruct (cls x) eqn:C; [|discriminate].
  destruct (match_here p' (Some x) s') as [m|] eqn:M; [|discriminate].
  intros [= <-]. now exists x, s', m.
Qed.

Lemma match_here_rep_inv (cls : ascii -> bool) (lo : nat) (hi : option nat)
    (p' : regex) (prev : option ascii) (s : string) (n : nat) :
  match_here (Rep cls lo hi :: p') prev s = Some n ->
  exists k m,
    lo <= k /\ k <= run cls hi s
    /\ match_here p' (prev_at prev s k) (drop k s) = Some m /\ n = k + m.
Proof.
  cbn [match_here]. generalize (run cls hi s) as r.
  induction r as [|r IH].
  - destruct (lo <=? 0)%nat eqn:L; [|discriminate].
    destruct (match_here p' (prev_at prev s 0) (drop 0 s)) as [m|] eqn:M;
      [|discriminate].
    cbn [option_map]. intros [= <-]. exists 0, m.
    apply Nat.leb_le in L. repeat split; auto.
  - destruct (lo <=? S r)%nat eqn:L.
    + destruct (match_here p' (prev_at prev s (S r)) (drop (S r) s)) as [m|] eqn:M.
      * cbn [option_map]. intros [= <-]. exists (S r), m.
        apply Nat.leb_le in L. repeat split; auto.
      * cbn [option_map]. intro H. apply IH in H as (k & m & Hl & Hk & Hm & ->).
        exists k, m. repeat split; auto.
    + intro H. apply IH in H as (k & m & Hl & Hk & Hm & ->).
      exists k, m. repeat split; auto.
Qed.

Lemma take_drop (k : nat) (s : string) : take k s ++ drop k s = s.
Proof.
  revert s; induction k as [|k IH]; intros [|c s]; cbn [take drop append];
    try reflexivity. now rewrite IH.
Qed.

Lemma run_prefix (cls : ascii -> bool) (hi : option nat) (s : string) (k : nat) :
  k <= run cls hi s ->
  all_chars cls (take k s) = true /\ String.length (take k s) = k.
Proof.
  revert hi s; induction k as [|k IH]; intros hi s H.
  - now destruct s.
  - destruct hi as [[|h]|]; destruct s as [|c s]; cbn [run] in H; try lia;
      destruct (cls c) eqn:C; try lia; cbn [option_map pred] in H;
      apply le_S_n in H; apply IH in H as [A B];
      cbn [take all_chars String.length]; now rewrite C, A, B.
Qed.

Lemma run_bounded (cls : ascii -> bool) (h : nat) (s : string) :
  run cls (Some h) s <= h.
Proof.
  revert s; induction h as [|h IH]; intro s; [now destruct s|].
  destruct s as [|c s]; cbn [run]; [lia|].
  destruct (cls c); [|lia]. cbn [option_map pred]. specialize (IH s). lia.
Qed.

Lemma at_end_inv (s : string) :
  at_end s = true -> s = EmptyString \/ s = String (ascii_of_nat 10) EmptyString.
Proof.
  destruct s as [|c [|d s]]; cbn [at_end]; [auto| |discriminate].
  intro H. right. apply Nat.eqb_eq in H. unfold code in H.
  now rewrite <- H, ascii_nat_embedding.
Qed.

Lemma count_char_app (c : ascii) (a b : string) :
  count_char c (a ++ b) = count_char c a + count_char c b.
Proof.
  induction a as [|x a IH]; cbn [append count_char]; [reflexivity|].
  rewrite IH. lia.
Qed.

Lemma count_char_class (cls : ascii -> bool) (c : ascii) (s : string) :
  cls c = false -> all_chars cls s = true -> count_char c s = 0.
Proof.
  intros N. induction s as [|x s IH]; cbn [all_chars count_char]; [reflexivity|].
  intro H. apply andb_true_iff in H as [Hx Hs].
  destruct (Ascii.eqb x c) eqn:E; [apply Ascii.eqb_eq in E; congruence|].
  now rewrite IH.
Qed.

Lemma nonempty_of_length (s : string) (k : nat) :
  String.length s = k -> 1 <= k -> s <> EmptyString.
Proof. intros L K ->. cbn in L. lia. Qed.

End MatcherFacts.

Section ValidatorShape.
Import PyStr Re Py ContactFinder.

(** X5.  An address that [_is_valid_email] accepts reads
    local@domain.tld, possibly followed by one newline (the [$] of the
    pattern allows it): the local part and the domain are not empty and made
    of the characters of their classes, the last label has at least two
    ASCII letters, and the address has exactly one at-sign. *)
Theorem valid_email_shape (e : string) (accepted : _is_valid_email e = true) :
  exists local_part domain tld tail,
    e = local_part ++ "@" ++ domain ++ "." ++ tld ++ tail
    /\ local_part <> EmptyString
    /\ all_chars (fun c => is_ascii_alnum c || in_chars "._%+-" c) local_part = true
    /\ domain <> EmptyString
    /\ all_chars (fun c => is_ascii_alnum c || in_chars ".-" c) domain = true
    /\ 2 <= String.length tld
    /\ all_chars is_ascii_alpha tld = true
    /\ (tail = EmptyString \/ tail = String (ascii_of_nat 10) EmptyString)
    /\ count_char "@" e = 1.
Proof.
  apply valid_email_facts in accepted as (_ & _ & M).
  unfold re_match in M.
  destruct (match_here email_format None e) as [n|] eqn:H; [clear M|discriminate].
  unfold email_format, plus in H. rewrite match_here_bos in H.
  apply match_here_rep_inv in H as (k1 & m1 & L1 & R1 & H & _).
  apply match_here_chr_inv in H as (x1 & r2 & m2 & E1 & C1 & H & _).
  apply Ascii.eqb_eq in C1. subst x1.
  apply match_here_rep_inv in H as (k2 & m3 & L2 & R2 & H & _).
  apply match_here_chr_inv in H as (x2 & r4 & m4 & E2 & C2 & H & _).
  apply Ascii.eqb_eq in C2. subst x2.
  apply match_here_rep_inv in H as (k3 & m5 & L3 & R3 & H & _).
  cbn [match_here] in H.
  destruct (at_end (drop k3 r4)) eqn:AE; [clear H|discriminate].
  apply at_end_inv in AE.
  apply run_prefix in R1 as [A1 N1]. apply run_prefix in R2 as [A2 N2].
  apply run_prefix in R3 as [A3 N3].
  assert (Ee : e = take k1 e ++ "@" ++ take k2 r2 ++ "." ++ take k3 r4 ++ drop k3 r4).
  { rewrite <- (take_drop k1 e) at 1. rewrite E1. cbn [append]. do 2 f_equal.
    rewrite <- (take_drop k2 r2) at 1. rewrite E2. cbn [append]. do 2 f_equal.
    now rewrite take_drop. }
  exists (take k1 e), (take k2 r2), (take k3 r4), (drop k3 r4).
  split; [exact Ee|].
  split; [now apply (nonempty_of_length _ k1)|].
  split; [exact A1|].
  split; [now apply (nonempty_of_length _ k2)|].
  split; [exact A2|].
  split; [lia|].
  split; [exact A3|].
  split; [exact AE|].
  rewrite Ee. rewrite !count_char_app.
  rewrite (count_char_class _ "@" _ eq_refl A1).
  rewrite (count_char_class _ "@" _ eq_refl A2).
  rewrite (count_char_class _ "@" _ eq_refl A3).
  destruct AE as [->| ->]; reflexivity.
Qed.

(** X7.  An address that [_is_valid_email] accepts is accepted by
    [_is_valid_contact_email] of the discovery module as well, unless it
    contains one of info@, support@, help@ and legal@, which only the
    latter denies. *)
Theorem strict_valid_is_contact_valid (e : string)
    (accepted : _is_valid_email e = true)
    (not_generic :
       forall g, In g ["info@"; "support@"; "help@"; "legal@"] ->
                 contains g (lower e) = false) :
  PodcastDiscovery._is_valid_contact_email e = true.
Proof.
  apply valid_email_facts in accepted as (_ & D & _).
  unfold PodcastDiscovery._is_valid_contact_email.
  assert (X : existsb (fun pattern => contains pattern (lower e))
                PodcastDiscovery.contact_skip_patterns = false).
  { unfold PodcastDiscovery.contact_skip_patterns. cbn [existsb].
    rewrite !(D "noreply"), !(D "no-reply"), !(D "donotreply"), !(D "privacy@"),
      !(D "abuse@"), !(D ".png"), !(D ".jpg"), !(D ".gif")
      by (unfold skip_patterns; cbn [In]; intuition).
    rewrite !(not_generic "info@"), !(not_generic "support@"),
      !(not_generic "help@"), !(not_generic "legal@") by (cbn [In]; intuition).
    reflexivity. }
  cbv zeta. now rewrite X.
Qed.

End ValidatorShape.

Section ValidatorShapeWitness.
Import PyStr Re Py ContactFinder.

(** X5 at booking@showname.com. *)
Lemma valid_email_shape_of_booking :
  _is_valid_email "booking@showname.com" = true
  /\ exists local_part domain tld tail,
       "booking@showname.com" = local_part ++ "@" ++ domain ++ "." ++ tld ++ tail
       /\ local_part <> EmptyString
       /\ all_chars (fun c => is_ascii_alnum c || in_chars "._%+-" c) local_part = true
       /\ domain <> EmptyString
       /\ all_chars (fun c => is_ascii_alnum c || in_chars ".-" c) domain = true
       /\ 2 <= String.length tld
       /\ all_chars is_ascii_alpha tld = true
       /\ (tail = EmptyString \/ tail = String (ascii_of_nat 10) EmptyString)
       /\ count_char "@" "booking@showname.com" = 1.
Proof.
  split; [reflexivity|].
  exact (valid_email_shape "booking@showname.com" eq_refl).
Defined.

(** X7 at booking@showname.com. *)
Lemma strict_valid_is_contact_valid_of_booking :
  _is_valid_email "booking@showname.com" = true
  /\ PodcastDiscovery._is_valid_contact_email "booking@showname.com" = true.
Proof.
  split; [reflexivity|].
  apply (strict_valid_is_contact_valid "booking@showname.com" eq_refl).
  intros g Hg. cbn [In] in Hg.
  repeat (destruct Hg as [<-|Hg]; [vm_compute; reflexivity|]). contradiction.
Defined.

End ValidatorShapeWitness.

(** ** Risk signals *)

Section RiskSignals.
Import PyStr Re Py PodcastDiscovery.

Lemma risk_signals_eq (title description : string) :
  _detect_risk_signals title description =
  ((if existsb (fun term => contains term (lower (title ++ " " ++ description)))
         political_terms then ["POTENTIAL_POLITICS"] else []) ++
   (if existsb (fun term => contains term (lower (title ++ " " ++ description)))
         explicit_terms then ["POTENTIAL_EXPLICIT"] else []) ++
   (if existsb (fun term => contains term (lower (title ++ " " ++ description)))
         paid_terms then ["POTENTIAL_PAID_GUEST"] else []) ++
   (if existsb (fun term => contains term (lower (title ++ " " ++ description)))
         no_guest_terms then ["POTENTIAL_NO_GUESTS"] else []))%list.
Proof.
  unfold _detect_risk_signals. cbv zeta.
  destruct (existsb _ political_terms), (existsb _ explicit_terms),
    (existsb _ paid_terms), (existsb _ no_guest_terms); reflexivity.
Qed.

Lemma existsb_contains_mono (terms : list string) (a s b : string) :
  existsb (fun term => contains term s) terms = true ->
  existsb (fun term => contains term (a ++ s ++ b)) terms = true.
Proof.
  intro H. apply existsb_exists in H as (t & Hin & Hc).
  apply existsb_exists. exists t. split; [exact Hin|].
  now apply contains_app_r, contains_app_l.
Qed.

Lemma append_assoc (a b c : string) : (a ++ b) ++ c = a ++ b ++ c.
Proof. induction a as [|x a IH]; cbn [append]; [reflexivity|now rewrite IH]. Qed.

(** X8.  Each of the four flags of [_detect_risk_signals] is raised
    exactly when one of its own terms occurs in the lower-cased text
    "title description", whatever the other flags do; the flags come in the
    fixed order politics, explicit, paid guest, no guests, each at most
    once. *)
Theorem risk_flags_independent (title description : string) :
  (In "POTENTIAL_POLITICS" (_detect_risk_signals title description) <->
     exists term, In term political_terms /\
                  contains term (lower (title ++ " " ++ description)) = true)
  /\ (In "POTENTIAL_EXPLICIT" (_detect_risk_signals title description) <->
        exists term, In term explicit_terms /\
                     contains term (lower (title ++ " " ++ description)) = true)
  /\ (In "POTENTIAL_PAID_GUEST" (_detect_risk_signals title description) <->
        exists term, In term paid_terms /\
                     contains term (lower (title ++ " " ++ description)) = true)
  /\ (In "POTENTIAL_NO_GUESTS" (_detect_risk_signals title description) <->
        exists term, In term no_guest_terms /\
                     contains term (lower (title ++ " " ++ description)) = true)
  /\ (exists keep,
        _detect_risk_signals title description =
        filter keep ["POTENTIAL_POLITICS"; "POTENTIAL_EXPLICIT";
                     "POTENTIAL_PAID_GUEST"; "POTENTIAL_NO_GUESTS"])
  /\ NoDup (_detect_risk_signals title description).
Proof.
  rewrite risk_signals_eq.
  rewrite <- !existsb_exists.
  remember (existsb _ political_terms) as p eqn:P.
  remember (existsb _ explicit_terms) as e eqn:E.
  remember (existsb _ paid_terms) as g eqn:G.
  remember (existsb _ no_guest_terms) as n eqn:N.
  clear P E G N.
  assert (F : forall flag b,
             (flag = "POTENTIAL_POLITICS" /\ b = p) \/ (flag = "POTENTIAL_EXPLICIT" /\ b = e)
             \/ (flag = "POTENTIAL_PAID_GUEST" /\ b = g)
             \/ (flag = "POTENTIAL_NO_GUESTS" /\ b = n) ->
             In flag ((if p then ["POTENTIAL_POLITICS"] else []) ++
                      (if e then ["POTENTIAL_EXPLICIT"] else []) ++
                      (if g then ["POTENTIAL_PAID_GUEST"] else []) ++
                      (if n then ["POTENTIAL_NO_GUESTS"] else []))%list
             <-> b = true).
  { intros flag b H.
    destruct H as [[-> ->]|[[-> ->]|[[-> ->]|[-> ->]]]];
      destruct p, e, g, n; cbn [app In]; split; intro H;
        try reflexivity; try discriminate; try tauto;
        repeat (destruct H as [H|H]; try discriminate); contradiction. }
  split; [apply F; tauto|].
  split; [apply F; tauto|].
  split; [apply F; tauto|].
  split; [apply F; tauto|].
  split.
  - exists (fun flag =>
              (String.eqb flag "POTENTIAL_POLITICS" && p) ||
              (String.eqb flag "POTENTIAL_EXPLICIT" && e) ||
              (String.eqb flag "POTENTIAL_PAID_GUEST" && g) ||
              (String.eqb flag "POTENTIAL_NO_GUESTS" && n)).
    destruct p, e, g, n; reflexivity.
  - destruct p, e, g, n; cbn [app];
      repeat (constructor; [cbn [In]; intros H;
                            repeat (destruct H as [H|H]; try discriminate); contradiction|]);
      constructor.
Qed.

(** X9.  Text added before the title or after the description never
    removes a flag. *)
Theorem risk_flags_monotone (title description before after flag : string)
    (raised : In flag (_detect_risk_signals title description)) :
  In flag (_detect_risk_signals (before ++ title) (description ++ after)).
Proof.
  rewrite risk_signals_eq in *.
  assert (C : lower ((before ++ title) ++ " " ++ description ++ after)
              = lower before ++ lower (title ++ " " ++ description) ++ lower after).
  { rewrite append_assoc, lower_app. f_equal.
    rewrite <- lower_app. f_equal.
    now rewrite !append_assoc. }
  rewrite C.
  assert (M : forall terms,
             existsb (fun term => contains term (lower (title ++ " " ++ description)))
               terms = true ->
             existsb (fun term =>
                        contains term (lower before ++
                                       lower (title ++ " " ++ description) ++ lower after))
               terms = true)
    by (intro terms; apply existsb_contains_mono).
  repeat rewrite in_app_iff in *.
  destruct raised as [H|[H|[H|H]]].
  - left. destruct (existsb _ political_terms) eqn:X in H; [|contradiction].
    now rewrite (M _ X).
  - right; left. destruct (existsb _ explicit_terms) eqn:X in H; [|contradiction].
    now rewrite (M _ X).
  - right; right; left. destruct (existsb _ paid_terms) eqn:X in H; [|contradiction].
    now rewrite (M _ X).
  - right; right; right. destruct (existsb _ no_guest_terms) eqn:X in H; [|contradiction].
    now rewrite (M _ X).
Qed.

(** X10.  The flags do not depend on the case of the title and of the
    description. *)
Theorem risk_flags_ignore_case (title description : string) :
  _detect_risk_signals (lower title) (lower description)
  = _detect_risk_signals title description.
Proof.
  rewrite !risk_signals_eq.
  assert (C : lower (lower title ++ " " ++ lower description)
              = lower (title ++ " " ++ description)).
  { rewrite !lower_app, !lower_idem. reflexivity. }
  now rewrite C.
Qed.

End RiskSignals.

Section RiskSignalsWitness.
Import PyStr Re Py PodcastDiscovery.

(** X9 at a show whose title names a paid guest slot. *)
Lemma risk_flags_monotone_at_paid_guest :
  In "POTENTIAL_PAID_GUEST" (_detect_risk_signals "Paid Guest Hour" "Talks")
  /\ In "POTENTIAL_PAID_GUEST"
       (_detect_risk_signals ("The " ++ "Paid Guest Hour") ("Talks" ++ " weekly")).
Proof.
  assert (H : In "POTENTIAL_PAID_GUEST" (_detect_risk_signals "Paid Guest Hour" "Talks"))
    by (vm_compute; auto).
  split; [exact H|].
  exact (risk_flags_monotone "Paid Guest Hour" "Talks" "The " " weekly"
           "POTENTIAL_PAID_GUEST" H).
Defined.

End RiskSignalsWitness.

(** ** The search steps *)

Section SearchFacts.
Import PyStr Re Py PodcastDiscovery.

Lemma py_slice_to_firstn {A} (n : Z) (l : list A) :
  exists k, py_slice_to n l = firstn k l.
Proof. unfold py_slice_to. destruct (0 <=? n)%Z; eexists; reflexivity. Qed.

Lemma py_slice_to_In {A} (n : Z) (l : list A) (x : A) :
  In x (py_slice_to n l) -> In x l.
Proof.
  destruct (py_slice_to_firstn n l) as [k ->].
  rewrite <- (firstn_skipn k l) at 2. rewrite in_app_iff. auto.
Qed.

Lemma NoDup_map_firstn {A B} (f : A -> B) (k : nat) (l : list A) :
  NoDup (map f l) -> NoDup (map f (firstn k l)).
Proof.
  intro H. rewrite <- (firstn_skipn k l), map_app in H.
  now apply NoDup_app_remove_r in H.
Qed.

Lemma py_slice_to_length {A} (n : Z) (l : list A) :
  (0 <= n)%Z -> (Z.of_nat (List.length (py_slice_to n l)) <= n)%Z.
Proof.
  intro H. unfold py_slice_to.
  destruct (0 <=? n)%Z eqn:E; [|apply Z.leb_gt in E; lia].
  pose proof (firstn_le_length (Z.to_nat n) l). lia.
Qed.

Lemma py_slice_to_nonpositive {A} (l : list A) : py_slice_to 0 l = [].
Proof. reflexivity. Qed.

(** The dedupe loop of the two search functions: no key twice, every entry
    a result with its source tag written, every key of the results kept. *)
Lemma unique_fold_spec (tag : string) (results : list PodcastDiscoveryResult) :
  let unique_results := snd (fold_left (unique_step tag) results ([], [])) in
  NoDup (map dedupe_key unique_results)
  /\ (forall r, In r unique_results ->
        exists r0, In r0 results /\ r = set_discovery_source tag r0)
  /\ (forall r0, In r0 results -> In (dedupe_key r0) (map dedupe_key unique_results)).
Proof.
  cbv zeta.
  assert (G : forall l seen uniq,
             (forall k, In k seen <-> In k (map dedupe_key uniq)) ->
             NoDup (map dedupe_key uniq) ->
             let out := snd (fold_left (unique_step tag) l (seen, uniq)) in
             NoDup (map dedupe_key out)
             /\ (forall r, In r out ->
                   In r uniq \/ exists r0, In r0 l /\ r = set_discovery_source tag r0)
             /\ (forall k, In k (map dedupe_key uniq) -> In k (map dedupe_key out))
             /\ (forall r0, In r0 l -> In (dedupe_key r0) (map dedupe_key out))).
  { induction l as [|x l IH]; intros seen uniq S N; cbv zeta; cbn [fold_left].
    - cbn [snd]. repeat split; auto. intros r0 [].
    - change (unique_step tag (seen, uniq) x)
        with (if negb (existsb (String.eqb (dedupe_key x)) seen)
              then (dedupe_key x :: seen, (uniq ++ [set_discovery_source tag x])%list)
              else (seen, uniq)).
      destruct (existsb (String.eqb (dedupe_key x)) seen) eqn:X; cbn [negb].
      + destruct (IH seen uniq S N) as (N' & O & K & C).
        repeat split; [exact N'| |exact K|].
        * intros r Hr. destruct (O r Hr) as [H|(r0 & H0 & ->)]; [now left|].
          right. exists r0. split; [now right|reflexivity].
        * intros r0 [<-|H]; [|now apply C].
          apply K, (proj1 (S (dedupe_key x))).
          apply existsb_exists in X as (k & Hk & Ek).
          apply String.eqb_eq in Ek. now rewrite Ek.
      + assert (Nx : ~ In (dedupe_key x) seen).
        { intro H. assert (existsb (String.eqb (dedupe_key x)) seen = true).
          { apply existsb_exists. exists (dedupe_key x). split; [exact H|].
            apply String.eqb_refl. }
          congruence. }
        destruct (IH (dedupe_key x :: seen) (uniq ++ [set_discovery_source tag x])%list)
          as (N' & O & K & C).
        * intro k. rewrite map_app, in_app_iff. cbn [In map dedupe_key].
          rewrite (S k). tauto.
        * rewrite map_app. cbn [map dedupe_key]. apply NoDup_snoc; [exact N|].
          intro H. now apply Nx, (proj2 (S (dedupe_key x))).
        * repeat split; [exact N'| | |].
          -- intros r Hr. destruct (O r Hr) as [H|(r0 & H0 & ->)].
             ++ apply in_app_iff in H as [H|[<-|[]]]; [now left|].
                right. exists x. split; [now left|reflexivity].
             ++ right. exists r0. split; [now right|reflexivity].
          -- intros k Hk. apply K. rewrite map_app, in_app_iff. now left.
          -- intros r0 [<-|H]; [|now apply C].
             apply K. rewrite map_app, in_app_iff. right. now left. }
  destruct (G results [] []) as (N & O & _ & C); [intro k; tauto|constructor|].
  repeat split; [exact N| |exact C].
  intros r Hr. destruct (O r Hr) as [[]|H]. exact H.
Qed.

End SearchFacts.

Section SearchClaims.
Import PyStr Re Py PodcastDiscovery.

Variable listen_notes_key : option string.
Variable podcast_index_key : option string.
Variable listen_notes_podcasts : string -> list PodcastDiscoveryResult.
Variable podcast_index_feeds : string -> Z -> list PodcastDiscoveryResult.
Variable apple_podcasts : string -> Z -> list PodcastDiscoveryResult.

(** X11.  [search_by_seed_guest] returns no dedupe key twice; every
    podcast it returns is one that Listen Notes or Podcast Index returned
    for the guest, with [discovery_source] set to seed:<guest> and nothing
    else changed; for a non-negative [max_results] it returns at most that
    many; without both API keys it returns nothing. *)
Theorem seed_guest_results (guest_name : string) (max_results : Z) :
  NoDup (map dedupe_key
           (search_by_seed_guest listen_notes_key podcast_index_key
              listen_notes_podcasts podcast_index_feeds guest_name max_results))
  /\ (forall r,
        In r (search_by_seed_guest listen_notes_key podcast_index_key
                listen_notes_podcasts podcast_index_feeds guest_name max_results) ->
        discovery_source r = "seed:" ++ guest_name
        /\ exists r0,
             (In r0 (listen_notes_podcasts guest_name)
              \/ exists limit,
                   In r0 (podcast_index_feeds
                            (double_quote ++ guest_name ++ double_quote) limit))
             /\ r = set_discovery_source ("seed:" ++ guest_name) r0)
  /\ ((0 <= max_results)%Z ->
      (Z.of_nat (List.length
                   (search_by_seed_guest listen_notes_key podcast_index_key
                      listen_notes_podcasts podcast_index_feeds guest_name max_results))
       <= max_results)%Z)
  /\ (truthy_opt listen_notes_key = false -> truthy_opt podcast_index_key = false ->
      search_by_seed_guest listen_notes_key podcast_index_key
        listen_notes_podcasts podcast_index_feeds guest_name max_results = []).
Proof.
  unfold search_by_seed_guest. cbv zeta.
  match goal with
  | |- context [fold_left (unique_step ?tag) ?results _] =>
      set (results0 := results);
      pose proof (unique_fold_spec tag results0) as U
  end.
  assert (Src : forall r0, In r0 results0 ->
                  In r0 (listen_notes_podcasts guest_name)
                  \/ exists limit,
                       In r0 (podcast_index_feeds
                                (double_quote ++ guest_name ++ double_quote) limit)).
  { clear U. subst results0. unfold _search_listen_notes_guest, _search_podcast_index.
    intros r0 H.
    destruct (truthy_opt listen_notes_key), (truthy_opt podcast_index_key);
      cbn [negb andb app] in H.
    - destruct (_ <? _)%Z.
      + apply in_app_iff in H as [H|H].
        * left. eapply py_slice_to_In. exact H.
        * right. eexists. exact H.
      + left. eapply py_slice_to_In. exact H.
    - left. eapply py_slice_to_In. exact H.
    - destruct (_ <? _)%Z; [|contradiction]. right. eexists. exact H.
    - contradiction. }
  cbv zeta in U. destruct U as (N & O & _).
  split; [|split; [|split]].
  - destruct (py_slice_to_firstn max_results
                (snd (fold_left (unique_step ("seed:" ++ guest_name)) results0 ([], []))))
      as [k ->].
    now apply NoDup_map_firstn.
  - intros r Hr. apply py_slice_to_In in Hr. apply O in Hr as (r0 & H0 & ->).
    split; [reflexivity|]. exists r0. split; [now apply Src|reflexivity].
  - apply py_slice_to_length.
  - intros L P. subst results0. rewrite L, P. cbn [andb fold_left snd].
    unfold py_slice_to. destruct (0 <=? max_results)%Z; [apply firstn_nil|reflexivity].
Qed.

(** X12.  [search_by_category] returns no dedupe key twice; every podcast
    it returns is one that Apple Podcasts or Podcast Index returned for the
    query, with [discovery_source] set to category:<query> and nothing else
    changed; for a non-negative [max_results] it returns at most that
    many. *)
Theorem category_results (category_query : string) (max_results : Z) :
  NoDup (map dedupe_key
           (search_by_category podcast_index_key podcast_index_feeds apple_podcasts
              category_query max_results))
  /\ (forall r,
        In r (search_by_category podcast_index_key podcast_index_feeds apple_podcasts
                category_query max_results) ->
        discovery_source r = "category:" ++ category_query
        /\ exists r0,
             (In r0 (apple_podcasts category_query max_results)
              \/ exists limit, In r0 (podcast_index_feeds category_query limit))
             /\ r = set_discovery_source ("category:" ++ category_query) r0)
  /\ ((0 <= max_results)%Z ->
      (Z.of_nat (List.length
                   (search_by_category podcast_index_key podcast_index_feeds
                      apple_podcasts category_query max_results))
       <= max_results)%Z).
Proof.
  unfold search_by_category. cbv zeta.
  match goal with
  | |- context [fold_left (unique_step ?tag) ?results _] =>
      set (results0 := results);
      pose proof (unique_fold_spec tag results0) as U
  end.
  assert (Src : forall r0, In r0 results0 ->
                  In r0 (apple_podcasts category_query max_results)
                  \/ exists limit, In r0 (podcast_index_feeds category_query limit)).
  { clear U. subst results0. unfold _search_apple_podcasts, _search_podcast_index.
    cbn [app]. intros r0 H.
    destruct (truthy_opt podcast_index_key); cbn [negb andb] in H; [|now left].
    destruct (_ <? _)%Z; [|now left].
    apply in_app_iff in H as [H|H]; [now left|]. right. eexists. exact H. }
  cbv zeta in U. destruct U as (N & O & _).
  split; [|split].
  - destruct (py_slice_to_firstn max_results
                (snd (fold_left (unique_step ("category:" ++ category_query))
                        results0 ([], []))))
      as [k ->].
    now apply NoDup_map_firstn.
  - intros r Hr. apply py_slice_to_In in Hr. apply O in Hr as (r0 & H0 & ->).
    split; [reflexivity|]. exists r0. split; [now apply Src|reflexivity].
  - apply py_slice_to_length.
Qed.

End SearchClaims.

(** ** Enrichment again *)

Section LoopInvariants.
Import PyStr Re Py.

Lemma bind_inv {S A B} (Inv : S -> Prop) (m : M S A) (k : A -> M S B) (s : S) :
  Inv (snd (m s)) -> (forall a s', Inv s' -> Inv (snd (k a s'))) ->
  Inv (snd (bind m k s)).
Proof.
  unfold bind. destruct (m s) as [[a|e] s']; cbn [snd]; auto.
Qed.

Lemma try_except_inv {S A} (Inv : S -> Prop) (body : M S A) (handler : exn -> M S A)
    (s : S) :
  Inv (snd (body s)) -> (forall e s', Inv s' -> Inv (snd (handler e s'))) ->
  Inv (snd (try_except body handler s)).
Proof.
  unfold try_except. destruct (body s) as [[a|e] s']; cbn [snd]; auto.
Qed.

Lemma for_each_inv {S A} (Inv : S -> Prop) (l : list A) (f : A -> M S unit) :
  (forall a s, In a l -> Inv s -> Inv (snd (f a s))) ->
  forall s, Inv s -> Inv (snd (for_each l f s)).
Proof.
  induction l as [|x l IH]; intros Hf s H; cbn [for_each]; [exact H|].
  apply bind_inv.
  - apply Hf; [now left|exact H].
  - intros _ s' H'. apply IH; [|exact H']. intros a s0 Ha. apply Hf. now right.
Qed.

End LoopInvariants.

Section FindEmails.
Import PyStr Re Py PodcastDiscovery.

Variable session_get : string -> outcome ContactFinder.response.
Variable soup_anchors : string -> list ContactFinder.anchor.
Variable soup_find_website_link : string -> option string.

(** X13.  [_find_emails] never raises and returns at most two entries.
    The source of every entry is one of the six URLs it probes (the site
    URL as given, and the site URL without trailing slashes followed by
    /contact, /contact-us, /about, /guest or /be-a-guest), that URL was
    fetched with status 200, and the address of the entry passes
    [_is_valid_contact_email]. *)
Theorem find_emails_entries (website_url : string) :
  exists emails,
    _find_emails session_get soup_anchors website_url = Ret emails
    /\ List.length emails <= 2
    /\ forall entry, In entry emails ->
         In (entry_source entry)
            [ website_url;
              rstrip_slash website_url ++ "/contact";
              rstrip_slash website_url ++ "/contact-us";
              rstrip_slash website_url ++ "/about";
              rstrip_slash website_url ++ "/guest";
              rstrip_slash website_url ++ "/be-a-guest" ]
         /\ ContactFinder.fetched session_get (entry_source entry)
         /\ _is_valid_contact_email (entry_email entry) = true.
Proof.
  unfold _find_emails, returning. cbv zeta.
  match goal with
  | |- context [for_each ?l ?f ?s] =>
      set (urls := l); set (step := f);
      destruct (for_each_returns l f (fun a s0 => try_except_pass _ s0) s) as [out E];
      pose proof (for_each_inv
                    (Forall (fun entry =>
                       In (entry_source entry) urls
                       /\ ContactFinder.fetched session_get (entry_source entry)
                       /\ _is_valid_contact_email (entry_email entry) = true))
                    l f) as I
  end.
  fold urls step in E, I. rewrite E.
  exists (firstn 2 out). split; [reflexivity|].
  split; [apply firstn_le_length|].
  intros entry Hin.
  assert (F : Forall (fun entry =>
                In (entry_source entry) urls
                /\ ContactFinder.fetched session_get (entry_source entry)
                /\ _is_valid_contact_email (entry_email entry) = true) out).
  { change out with (snd (@Ret unit tt, out)). rewrite <- E. apply I; [|constructor].
    clear E I out entry Hin. intros url s Hu Hs. subst step. cbv beta.
    apply try_except_inv; [|intros e s' H; exact H].
    unfold bind at 1, await at 1.
    destruct (session_get url) as [resp|e] eqn:G; [|exact Hs].
    destruct (ContactFinder.status resp =? 200)%Z eqn:St; [|exact Hs].
    unfold bind at 1, await at 1.
    destruct (ContactFinder.text resp) as [html|e] eqn:Tx; [|exact Hs].
    assert (Fu : ContactFinder.fetched session_get url).
    { exists resp, html. repeat split; [exact G| |exact Tx]. now apply Z.eqb_eq. }
    apply bind_inv.
    - apply for_each_inv; [|exact Hs]. intros link s0 _ H0.
      destruct (_is_valid_contact_email _) eqn:V; [|exact H0].
      unfold modify. cbn [snd]. apply Forall_app. split; [exact H0|].
      constructor; [|constructor]. cbn [entry_source entry_email]. now repeat split.
    - intros _ s1 H1. apply for_each_inv; [|exact H1]. intros email s0 _ H0.
      unfold bind, get.
      destruct (_is_valid_contact_email email) eqn:V; [|exact H0].
      destruct (negb _); cbn [andb]; [|exact H0].
      unfold modify. cbn [snd]. apply Forall_app. split; [exact H0|].
      constructor; [|constructor]. cbn [entry_source entry_email]. now repeat split. }
  rewrite Forall_forall in F. apply F.
  rewrite <- (firstn_skipn 2 out). apply in_app_iff. now left.
Qed.

End FindEmails.

Section EnrichSources.
Import PyStr Re Py PodcastDiscovery.

Variable session_get : string -> outcome ContactFinder.response.
Variable soup_anchors : string -> list ContactFinder.anchor.
Variable soup_find_website_link : string -> option string.

Local Abbreviation enrich :=
  (enrich_podcast session_get soup_anchors soup_find_website_link).

(** The podcast that [enrich_podcast] returns, with where its parts come
    from: the website is looked up only when it is missing and there is a
    platform URL, and the entries are those of [_find_emails] on the
    resulting website. *)
Lemma enrich_result_sources (podcast : PodcastDiscoveryResult) :
  exists p1 emails,
    ((p1 = podcast
      /\ (truthy_opt (website_url podcast) = true
          \/ truthy (primary_platform_url podcast) = false))
     \/ (truthy_opt (website_url podcast) = false
         /\ truthy (primary_platform_url podcast) = true
         /\ exists found,
              _find_website session_get soup_find_website_link podcast = Ret found
              /\ p1 = set_website_url found podcast))
    /\ ((emails = [] /\ truthy_opt (website_url p1) = false)
        \/ exists site,
             website_url p1 = Some site /\ truthy site = true
             /\ _find_emails session_get soup_anchors site = Ret emails)
    /\ enrich podcast = Ret (apply_emails emails p1).
Proof.
  assert (Stage : forall p : PodcastDiscoveryResult,
    exists emails,
      ((emails = [] /\ truthy_opt (website_url p) = false)
       \/ exists site,
            website_url p = Some site /\ truthy site = true
            /\ _find_emails session_get soup_anchors site = Ret emails)
      /\ match
        bind get (fun p0 =>
          match website_url p0 with
          | None => ret tt
          | Some site =>
              if truthy site then
                bind (await (_find_emails session_get soup_anchors site)) (fun emails =>
                  match emails with
                  | e0 :: rest =>
                      bind (modify (set_primary_email (Some (entry_email e0)))) (fun _ =>
                      bind (modify (set_primary_email_source_url (Some (entry_source e0)))) (fun _ =>
                        match rest with
                        | e1 :: _ =>
                            bind (modify (set_backup_email (Some (entry_email e1)))) (fun _ =>
                              modify (set_backup_email_source_url (Some (entry_source e1))))
                        | [] => ret tt
                        end))
                  | [] => ret tt
                  end)
              else ret tt
          end) p
      with
      | (Ret _, s) => Ret s
      | (Raise e, _) => Raise e
      end = Ret (apply_emails emails p)).
  { intro p. unfold bind at 1, get.
    destruct (website_url p) as [site|] eqn:W;
      [destruct (truthy site) eqn:T|];
      try (exists []; split; [left; split; [reflexivity|cbn [truthy_opt]; auto]|reflexivity]).
    unfold bind at 1, await. destruct (find_emails_returns session_get soup_anchors site)
      as [emails E].
    rewrite E. exists emails. split; [right; now exists site|].
    now destruct emails as [|e0 [|e1 rest]]. }
  unfold enrich_podcast, returning. unfold bind at 1. unfold bind at 1, get.
  destruct (truthy_opt (website_url podcast)) eqn:W; cbn [negb andb].
  - unfold ret at 1. destruct (Stage podcast) as (emails & Src & E).
    exists podcast, emails. split; [left; auto|]. split; [exact Src|exact E].
  - destruct (truthy (primary_platform_url podcast)) eqn:P.
    + unfold bind at 1, await.
      destruct (find_website_returns session_get soup_find_website_link podcast)
        as [found F].
      rewrite F. unfold modify.
      destruct (Stage (set_website_url found podcast)) as (emails & Src & E).
      exists (set_website_url found podcast), emails.
      split; [right; repeat split; now exists found|]. split; [exact Src|exact E].
    + unfold ret at 1. destruct (Stage podcast) as (emails & Src & E).
      exists podcast, emails. split; [left; auto|]. split; [exact Src|exact E].
Qed.

Lemma apply_emails_website (emails : list email_entry) (p : PodcastDiscoveryResult) :
  website_url (apply_emails emails p) = website_url p.
Proof. now destruct emails as [|e0 [|e1 rest]]. Qed.

(** X14.  [enrich_podcast] never replaces a website that is set: the
    website of the result differs from the one of the argument only when
    the argument had none (None or empty) and has a platform URL, and it is
    then what [_find_website] returned.  When the result has no website, no
    e-mail field is touched. *)
Theorem enrich_website_rule (podcast : PodcastDiscoveryResult) :
  exists enriched,
    enrich podcast = Ret enriched
    /\ (website_url enriched = website_url podcast
        \/ (truthy_opt (website_url podcast) = false
            /\ truthy (primary_platform_url podcast) = true
            /\ _find_website session_get soup_find_website_link podcast
               = Ret (website_url enriched)))
    /\ (truthy_opt (website_url enriched) = false ->
        primary_email enriched = primary_email podcast
        /\ primary_email_source_url enriched = primary_email_source_url podcast
        /\ backup_email enriched = backup_email podcast
        /\ backup_email_source_url enriched = backup_email_source_url podcast).
Proof.
  destruct (enrich_result_sources podcast) as (p1 & emails & Hp1 & Src & ->).
  eexists. split; [reflexivity|]. rewrite apply_emails_website. split.
  - destruct Hp1 as [[-> _]|(W & P & found & F & ->)]; [now left|].
    right. repeat split; auto.
  - intro N. destruct Src as [[-> _]|(site & W & T & _)].
    + cbn [apply_emails].
      destruct Hp1 as [[-> _]|(_ & _ & found & _ & ->)]; now repeat split.
    + rewrite W in N. cbn [truthy_opt] in N. congruence.
Qed.

(** X15.  Whenever [enrich_podcast] writes an e-mail field, the value and
    its source are those of one entry of the list that [_find_emails]
    returns for the website of the result: the primary e-mail and its source
    are the two fields of entry 0, the backup e-mail and its source the two
    fields of entry 1; a pair whose entry is missing is left as it was, and
    so are all four fields when the result has no website.  The source of
    every entry is the site URL or the site URL without trailing slashes
    followed by one of the five contact paths, it was fetched with status
    200, and the address of the entry passes [_is_valid_contact_email]. *)
Theorem enrich_email_sources (podcast : PodcastDiscoveryResult) :
  exists enriched,
    enrich podcast = Ret enriched
    /\ ((truthy_opt (website_url enriched) = false
         /\ primary_email enriched = primary_email podcast
         /\ primary_email_source_url enriched = primary_email_source_url podcast
         /\ backup_email enriched = backup_email podcast
         /\ backup_email_source_url enriched = backup_email_source_url podcast)
        \/ exists site entries,
             website_url enriched = Some site
             /\ truthy site = true
             /\ _find_emails session_get soup_anchors site = Ret entries
             /\ match nth_error entries 0 with
                | Some e0 =>
                    primary_email enriched = Some (entry_email e0)
                    /\ primary_email_source_url enriched = Some (entry_source e0)
                | None =>
                    primary_email enriched = primary_email podcast
                    /\ primary_email_source_url enriched
                       = primary_email_source_url podcast
                end
             /\ match nth_error entries 1 with
                | Some e1 =>
                    backup_email enriched = Some (entry_email e1)
                    /\ backup_email_source_url enriched = Some (entry_source e1)
                | None =>
                    backup_email enriched = backup_email podcast
                    /\ backup_email_source_url enriched
                       = backup_email_source_url podcast
                end
             /\ forall entry, In entry entries ->
                  In (entry_source entry)
                     [ site;
                       rstrip_slash site ++ "/contact";
                       rstrip_slash site ++ "/contact-us";
                       rstrip_slash site ++ "/about";
                       rstrip_slash site ++ "/guest";
                       rstrip_slash site ++ "/be-a-guest" ]
                  /\ ContactFinder.fetched session_get (entry_source entry)
                  /\ _is_valid_contact_email (entry_email entry) = true).
Proof.
  destruct (enrich_result_sources podcast) as (p1 & emails & Hp1 & Src & ->).
  eexists. split; [reflexivity|].
  assert (K : primary_email p1 = primary_email podcast
              /\ primary_email_source_url p1 = primary_email_source_url podcast
              /\ backup_email p1 = backup_email podcast
              /\ backup_email_source_url p1 = backup_email_source_url podcast).
  { destruct Hp1 as [[-> _]|(_ & _ & found & _ & ->)]; now repeat split. }
  destruct K as (K1 & K2 & K3 & K4).
  destruct Src as [[-> N]|(site & W & T & E)].
  - left. cbn [apply_emails]. now repeat split.
  - right. exists site, emails.
    destruct (find_emails_entries session_get soup_anchors site) as (l & E' & _ & P).
    rewrite E in E'. injection E' as <-.
    rewrite apply_emails_website.
    split; [exact W|]. split; [exact T|]. split; [exact E|].
    destruct emails as [|e0 [|e1 rest]]; cbn [apply_emails nth_error];
      (split; [now split|]); (split; [now split|]); exact P.
Qed.

End EnrichSources.

(** ** What the text scan extracts *)

Section FindallFacts.
Import PyStr Re Py.

Lemma findall_from_sound (p : regex) (s : string) :
  forall prev skip t,
    In t (findall_from p prev s skip) ->
    exists before rest prev' n,
      s = before ++ rest /\ match_here p prev' rest = Some n /\ t = take n rest.
Proof.
  induction s as [|c s IH]; intros prev skip t H.
  - cbn [findall_from] in H. destruct skip; [|contradiction].
    destruct (match_here p prev EmptyString) as [n|] eqn:M; [|contradiction].
    destruct H as [<-|[]]. exists EmptyString, EmptyString, prev, n.
    repeat split; [exact M|now destruct n].
  - cbn [findall_from] in H. destruct skip as [|k].
    + destruct (match_here p prev (String c s)) as [n|] eqn:M.
      * destruct H as [<-|H].
        -- exists EmptyString, (String c s), prev, n. now repeat split.
        -- apply IH in H as (before & rest & prev' & m & -> & Hm & ->).
           exists (String c before), rest, prev', m. now repeat split.
      * apply IH in H as (before & rest & prev' & m & -> & Hm & ->).
        exists (String c before), rest, prev', m. now repeat split.
    + apply IH in H as (before & rest & prev' & m & -> & Hm & ->).
      exists (String c before), rest, prev', m. now repeat split.
Qed.

Lemma take_add (k m : nat) (s : string) :
  take (k + m) s = take k s ++ take m (drop k s).
Proof.
  revert s; induction k as [|k IH]; intros [|c s]; cbn [Nat.add take drop append];
    try reflexivity.
  - now destruct m.
  - now rewrite IH.
Qed.

Lemma match_here_wordb_inv (p' : regex) (prev : option ascii) (s : string) (n : nat) :
  match_here (WordB :: p') prev s = Some n ->
  at_boundary prev s = true /\ match_here p' prev s = Some n.
Proof.
  cbn [match_here]. destruct (at_boundary prev s); [auto|discriminate].
Qed.

End FindallFacts.

Section TextScan.
Import PyStr Re Py ContactFinder.

(** X6.  Every token that the text scan of [_scrape_page_for_emails]
    extracts with its pattern stands in the page as it is, and reads
    local@domain.tld: a non-empty local part and a non-empty domain made of
    the characters of their classes, and a last label of two to seven
    characters that are ASCII letters or the bar. *)
Theorem text_tokens_are_in_page (html token : string)
    (found : In token (findall email_pattern html)) :
  (exists before after, html = before ++ token ++ after)
  /\ exists local_part domain tld,
       token = local_part ++ "@" ++ domain ++ "." ++ tld
       /\ local_part <> EmptyString
       /\ all_chars (fun c => is_ascii_alnum c || in_chars "._%+-" c) local_part = true
       /\ domain <> EmptyString
       /\ all_chars (fun c => is_ascii_alnum c || in_chars ".-" c) domain = true
       /\ 2 <= String.length tld /\ String.length tld <= 7
       /\ all_chars (fun c => is_ascii_alpha c || in_chars "|" c) tld = true.
Proof.
  apply findall_from_sound in found as (before & rest & prev & n & -> & H & ->).
  split.
  { exists before, (drop n rest). now rewrite take_drop. }
  unfold email_pattern, plus in H.
  apply match_here_wordb_inv in H as [_ H].
  apply match_here_rep_inv in H as (k1 & m1 & L1 & R1 & H & ->).
  apply match_here_chr_inv in H as (x1 & r2 & m2 & E1 & C1 & H & ->).
  apply Ascii.eqb_eq in C1. subst x1.
  apply match_here_rep_inv in H as (k2 & m3 & L2 & R2 & H & ->).
  apply match_here_chr_inv in H as (x2 & r4 & m4 & E2 & C2 & H & ->).
  apply Ascii.eqb_eq in C2. subst x2.
  apply match_here_rep_inv in H as (k3 & m5 & L3 & R3 & H & ->).
  apply match_here_wordb_inv in H as [_ H]. cbn [match_here] in H.
  injection H as <-.
  pose proof (run_bounded (fun c => is_ascii_alpha c || in_chars "|" c) 7 r4) as B3.
  apply run_prefix in R1 as [A1 N1]. apply run_prefix in R2 as [A2 N2].
  pose proof R3 as R3'. apply run_prefix in R3 as [A3 N3].
  exists (take k1 rest), (take k2 r2), (take k3 r4).
  split.
  { rewrite take_add, E1. cbn [take append]. do 2 f_equal.
    rewrite take_add, E2. cbn [take append]. do 2 f_equal.
    now rewrite Nat.add_0_r. }
  split; [now apply (nonempty_of_length _ k1)|].
  split; [exact A1|].
  split; [now apply (nonempty_of_length _ k2)|].
  split; [exact A2|].
  split; [lia|]. split; [lia|exact A3].
Qed.

End TextScan.

Section TextScanWitness.
Import PyStr Re Py ContactFinder.

(** X6 at the address in the text of the scenario homepage. *)
Lemma text_tokens_of_homepage :
  In "info@show.com" (findall email_pattern Scenario.homepage_html)
  /\ (exists before after, Scenario.homepage_html = before ++ "info@show.com" ++ after)
  /\ exists local_part domain tld,
       "info@show.com" = local_part ++ "@" ++ domain ++ "." ++ tld
       /\ local_part <> EmptyString
       /\ all_chars (fun c => is_ascii_alnum c || in_chars "._%+-" c) local_part = true
       /\ domain <> EmptyString
       /\ all_chars (fun c => is_ascii_alnum c || in_chars ".-" c) domain = true
       /\ 2 <= String.length tld /\ String.length tld <= 7
       /\ all_chars (fun c => is_ascii_alpha c || in_chars "|" c) tld = true.
Proof.
  assert (H : In "info@show.com" (findall email_pattern Scenario.homepage_html))
    by (vm_compute; auto).
  split; [exact H|].
  exact (text_tokens_are_in_page Scenario.homepage_html "info@show.com" H).
Defined.

End TextScanWitness.

(** ** Letter case *)

Section LetterCase.
Import PyStr Re Py ContactFinder.

Lemma lower_char_keeps (cls : ascii -> bool) :
  (forall b0 b1 b2 b3 b4 b5 b6 b7,
      cls (lower_char (Ascii b0 b1 b2 b3 b4 b5 b6 b7))
      = cls (Ascii b0 b1 b2 b3 b4 b5 b6 b7)) ->
  forall c, cls (lower_char c) = cls c.
Proof. intros H [b0 b1 b2 b3 b4 b5 b6 b7]. apply H. Qed.

Lemma is_word_lower (c : ascii) : is_word (lower_char c) = is_word c.
Proof. destruct c as [[] [] [] [] [] [] [] []]; vm_compute; reflexivity. Qed.

Lemma is_newline_lower (c : ascii) :
  (code (lower_char c) =? 10)%nat = (code c =? 10)%nat.
Proof. destruct c as [[] [] [] [] [] [] [] []]; vm_compute; reflexivity. Qed.

Lemma is_at_lower (c : ascii) : Ascii.eqb "@" (lower_char c) = Ascii.eqb "@" c.
Proof. destruct c as [[] [] [] [] [] [] [] []]; vm_compute; reflexivity. Qed.

Lemma local_class_lower (c : ascii) :
  is_ascii_alnum (lower_char c) || in_chars "._%+-" (lower_char c)
  = is_ascii_alnum c || in_chars "._%+-" c.
Proof. destruct c as [[] [] [] [] [] [] [] []]; vm_compute; reflexivity. Qed.

Lemma domain_class_lower (c : ascii) :
  is_ascii_alnum (lower_char c) || in_chars ".-" (lower_char c)
  = is_ascii_alnum c || in_chars ".-" c.
Proof. destruct c as [[] [] [] [] [] [] [] []]; vm_compute; reflexivity. Qed.

Lemma alpha_class_lower (c : ascii) : is_ascii_alpha (lower_char c) = is_ascii_alpha c.
Proof. destruct c as [[] [] [] [] [] [] [] []]; vm_compute; reflexivity. Qed.

Lemma dot_class_lower (c : ascii) : Ascii.eqb "." (lower_char c) = Ascii.eqb "." c.
Proof. destruct c as [[] [] [] [] [] [] [] []]; vm_compute; reflexivity. Qed.

Lemma run_lower (cls : ascii -> bool) (hi : option nat) (s : string) :
  (forall c, cls (lower_char c) = cls c) ->
  run cls hi (lower s) = run cls hi s.
Proof.
  intro H. revert hi; induction s as [|c s IH]; intro hi.
  - now destruct hi as [[|h]|].
  - destruct hi as [[|h]|]; cbn [lower run]; [reflexivity| |];
      rewrite H; destruct (cls c); try reflexivity; now rewrite IH.
Qed.

Lemma drop_lower (k : nat) (s : string) : drop k (lower s) = lower (drop k s).
Proof.
  revert s; induction k as [|k IH]; intros [|c s]; cbn [drop lower]; auto.
Qed.

Lemma prev_at_lower (prev : option ascii) (s : string) (k : nat) :
  prev_at (option_map lower_char prev) (lower s) k
  = option_map lower_char (prev_at prev s k).
Proof.
  revert prev s; induction k as [|k IH]; intros prev [|c s]; cbn [prev_at lower]; auto.
  apply (IH (Some c) s).
Qed.

Lemma at_boundary_lower (prev : option ascii) (s : string) :
  at_boundary (option_map lower_char prev) (lower s) = at_boundary prev s.
Proof.
  unfold at_boundary. f_equal.
  - destruct prev as [c|]; cbn [option_map word_opt]; [apply is_word_lower|reflexivity].
  - destruct s as [|c s]; cbn [lower head word_opt]; [reflexivity|apply is_word_lower].
Qed.

Lemma at_end_lower (s : string) : at_end (lower s) = at_end s.
Proof.
  destruct s as [|c [|d s]]; cbn [lower at_end]; auto. apply is_newline_lower.
Qed.

(** A pattern whose classes do not tell a letter from its lower case
    matches a string and its lower case alike. *)
Lemma match_here_lower (p : regex) :
  Forall (fun a => match a with
                   | Chr cls | Rep cls _ _ => forall c, cls (lower_char c) = cls c
                   | _ => True
                   end) p ->
  forall prev s,
    match_here p (option_map lower_char prev) (lower s) = match_here p prev s.
Proof.
  induction 1 as [|a p Ha Hp IH]; intros prev s; [reflexivity|].
  destruct a as [cls|cls lo hi| | |].
  - destruct s as [|c s]; cbn [lower match_here]; [reflexivity|].
    rewrite Ha. destruct (cls c); [|reflexivity].
    change (Some (lower_char c)) with (option_map lower_char (Some c)).
    now rewrite IH.
  - cbn [match_here]. rewrite run_lower by exact Ha.
    generalize (run cls hi s) as r. induction r as [|r IHr].
    + rewrite prev_at_lower, drop_lower, IH. reflexivity.
    + rewrite prev_at_lower, drop_lower, IH.
      destruct (lo <=? S r)%nat;
        [destruct (match_here p (prev_at prev s (S r)) (drop (S r) s));
         cbn [option_map]; [reflexivity|exact IHr]
        |exact IHr].
  - cbn [match_here]. destruct prev; cbn [option_map]; [reflexivity|].
    apply (IH None s).
  - cbn [match_here]. rewrite at_end_lower. now rewrite IH.
  - cbn [match_here]. rewrite at_boundary_lower. now rewrite IH.
Qed.

Lemma contains_at_lower_eq (s : string) : contains "@" (lower s) = contains "@" s.
Proof.
  induction s as [|c s IH]; [reflexivity|].
  cbn [lower contains startswith]. now rewrite is_at_lower, IH.
Qed.

Lemma re_match_email_format_lower (s : string) :
  re_match email_format s = true -> re_match email_format (lower s) = true.
Proof.
  intro H. rewrite <- H. unfold re_match.
  rewrite <- (match_here_lower email_format) with (prev := None) (s := s);
    [reflexivity|].
  unfold email_format, plus.
  repeat constructor; try exact local_class_lower; try exact domain_class_lower;
    try exact alpha_class_lower; try exact is_at_lower; try exact dot_class_lower.
Qed.

Lemma valid_email_lower (e : string) :
  _is_valid_email e = true -> _is_valid_email (lower e) = true.
Proof.
  intro V. apply valid_email_facts in V as (A & D & M).
  unfold _is_valid_email. cbv zeta.
  rewrite contains_at_lower_eq, A, lower_idem, (re_match_email_format_lower _ M).
  assert (X : existsb (fun pattern => contains pattern (lower e)) skip_patterns = false).
  { destruct (existsb _ skip_patterns) eqn:X; [|reflexivity].
    apply existsb_exists in X as (pattern & Hin & Hc). rewrite (D _ Hin) in Hc.
    discriminate. }
  rewrite X.
  destruct e; [discriminate A|reflexivity].
Qed.

(** X16.  The lower-cased form of an address that [_is_valid_email]
    accepts is accepted as well: what a candidate stores passes the
    validator that let the address in. *)
Theorem lowered_valid_email_is_valid (e : string) (accepted : _is_valid_email e = true) :
  _is_valid_email (lower e) = true.
Proof.
  apply valid_email_facts in accepted as (A & D & M).
  unfold _is_valid_email. cbv zeta.
  rewrite contains_at_lower_eq, A, lower_idem, (re_match_email_format_lower _ M).
  assert (X : existsb (fun pattern => contains pattern (lower e)) skip_patterns = false).
  { destruct (existsb _ skip_patterns) eqn:X; [|reflexivity].
    apply existsb_exists in X as (pattern & Hin & Hc). rewrite (D _ Hin) in Hc.
    discriminate. }
  rewrite X.
  destruct e; [discriminate A|reflexivity].
Qed.

(** X17.  [_classify_email] does not depend on the case of the address or
    of the context. *)
Theorem classify_ignores_case (e context : string) :
  _classify_email (lower e) (lower context) = _classify_email e context.
Proof.
  unfold _classify_email. cbv zeta.
  assert (C : lower (lower e ++ " " ++ lower context) = lower (e ++ " " ++ context)).
  { rewrite !lower_app, !lower_idem. reflexivity. }
  now rewrite C, lower_idem.
Qed.

End LetterCase.

Section LetterCaseWitness.
Import PyStr Re Py ContactFinder.

(** X16 at an address written in capitals. *)
Lemma valid_email_lower_of_capitals :
  _is_valid_email "Booking@ShowName.COM" = true
  /\ lower "Booking@ShowName.COM" = "booking@showname.com"
  /\ _is_valid_email (lower "Booking@ShowName.COM") = true.
Proof.
  split; [reflexivity|]. split; [reflexivity|].
  exact (lowered_valid_email_is_valid "Booking@ShowName.COM" eq_refl).
Defined.

End LetterCaseWitness.

Section ReturnedContacts.
Import PyStr Re Py ContactFinder.

Variable session_get : string -> outcome response.
Variable soup_anchors : string -> list anchor.

Lemma page_contacts_valid (url html : string) :
  Forall (fun c => _is_valid_email (email c) = true)
         (page_contacts soup_anchors url html).
Proof.
  unfold page_contacts.
  assert (T : forall l acc, Forall (fun c => _is_valid_email (email c) = true) acc ->
              Forall (fun c => _is_valid_email (email c) = true)
                     (fold_left (text_step url) l acc)).
  { induction l as [|x l IH]; intros acc H; cbn [fold_left]; [exact H|].
    apply IH. unfold text_step.
    destruct (_is_valid_email x) eqn:V; [|exact H]. destruct (negb _); [|exact H].
    apply Forall_app; split; [exact H|]. constructor; [|constructor].
    cbn [email]. now apply valid_email_lower. }
  assert (L : forall l acc, Forall (fun c => _is_valid_email (email c) = true) acc ->
              Forall (fun c => _is_valid_email (email c) = true)
                     (fold_left (mailto_step url) l acc)).
  { induction l as [|x l IH]; intros acc H; cbn [fold_left]; [exact H|].
    apply IH. unfold mailto_step.
    destruct (_is_valid_email _) eqn:V; [|exact H]. cbv zeta.
    apply Forall_app; split; [exact H|]. constructor; [|constructor].
    cbn [email]. now apply valid_email_lower. }
  apply T, L. constructor.
Qed.

End ReturnedContacts.

Section ReturnedContactsClaims.
Import PyStr Re Py ContactFinder.

Variable session_get : string -> outcome response.
Variable soup_anchors : string -> list anchor.

(** X18.  The primary and the backup that [find_contacts] returns are
    candidates as the page scan builds them: the address is in lower case
    and is itself accepted by [_is_valid_email], the type is one of the four
    contact types, and the confidence is 0.9 with type booking, 0.7 with
    another type, or 0.6. *)
Theorem returned_contacts_well_formed
    (website_url : option string) (podcast_name : string)
    (social_links : option (list string)) :
  exists primary backup,
    find_contacts session_get soup_anchors website_url podcast_name social_links
      = Ret (primary, backup)
    /\ forall c, primary = Some c \/ backup = Some c ->
         lower (email c) = email c
         /\ _is_valid_email (email c) = true
         /\ In (contact_type c) ["booking"; "host"; "producer"; "general"]
         /\ ((confidence c = 0.9%Q /\ contact_type c = "booking")
             \/ (confidence c = 0.7%Q /\ contact_type c <> "booking")
             \/ confidence c = 0.6%Q).
Proof.
  rewrite find_contacts_result. cbv zeta. do 2 eexists. split; [reflexivity|].
  intros c H.
  assert (Hin : In c (_rank_contacts
                        match website_url with
                        | Some u =>
                            if truthy u
                            then flat_map
                                   (fun path =>
                                      page_result session_get soup_anchors
                                        (rstrip_slash u ++ path))
                                   paths_to_check
                            else []
                        | None => []
                        end)).
  { destruct H as [H|H]; eapply nth_error_In; exact H. }
  apply rank_incl in Hin.
  destruct website_url as [u|]; [|contradiction].
  destruct (truthy u); [|contradiction].
  apply in_flat_map in Hin as (path & _ & Hc).
  unfold page_result in Hc.
  destruct (session_get _) as [resp|e]; [|contradiction].
  destruct (status resp =? 200)%Z; [|contradiction].
  destruct (text resp) as [html|e]; [|contradiction].
  pose proof (page_contacts_stored_ok soup_anchors (rstrip_slash u ++ path) html) as F.
  pose proof (page_contacts_valid soup_anchors (rstrip_slash u ++ path) html) as V.
  rewrite Forall_forall in F, V.
  destruct (F c Hc) as (T & C & L & _ & _).
  repeat split; [exact L|now apply V|exact T|exact C].
Qed.

End ReturnedContactsClaims.

(** ** Booking first *)

Section BookingFirst.
Import PyStr Re Py ContactFinder.

Lemma booking_patterns_keywords (s : string) :
  existsb (fun pattern => re_search pattern s) booking_patterns = has_booking_keyword s.
Proof.
  unfold has_booking_keyword, booking_patterns, booking_keywords.
  cbn [map existsb]. now rewrite !re_search_lit.
Qed.

Lemma classify_booking_iff (e context : string) :
  _classify_email e context = "booking"
  <-> has_booking_keyword (lower (e ++ " " ++ context)) = true.
Proof.
  unfold _classify_email. cbv zeta. rewrite booking_patterns_keywords.
  destruct (has_booking_keyword _); [tauto|].
  split; [|discriminate].
  destruct (existsb _ host_patterns); [discriminate|].
  destruct (_ || _); discriminate.
Qed.

Lemma startswith_before_space (w s : string) :
  w <> EmptyString -> count_char " " w = 0 ->
  startswith w (s ++ " ") = true -> startswith w s = true.
Proof.
  revert s; induction w as [|p w IH]; intros s N C H; [congruence|].
  cbn [count_char] in C.
  destruct (Ascii.eqb p " ") eqn:P; [discriminate|]. cbn [Nat.add] in C.
  destruct s as [|c s]; cbn [append startswith] in *.
  - rewrite P in H. discriminate.
  - apply andb_true_iff in H as [H1 H2]. rewrite H1. cbn [andb].
    destruct w as [|q w]; [reflexivity|]. apply IH; [discriminate|exact C|exact H2].
Qed.

Lemma contains_before_space (w s : string) :
  w <> EmptyString -> count_char " " w = 0 ->
  contains w (s ++ " ") = true -> contains w s = true.
Proof.
  intros N C. induction s as [|c s IH]; intro H.
  - cbn [append contains] in H. rewrite orb_false_r in H.
    apply orb_true_iff in H as [H|H].
    + apply (startswith_before_space w EmptyString N C) in H.
      cbn [contains]. now rewrite H.
    + destruct w; [congruence|discriminate].
  - cbn [append contains] in H. apply orb_true_iff in H as [H|H].
    + apply (startswith_before_space w (String c s) N C) in H.
      cbn [contains]. now rewrite H.
    + cbn [contains]. rewrite (IH H). apply orb_true_r.
Qed.

Lemma keyword_without_context (e : string) :
  has_booking_keyword (lower (e ++ " " ++ EmptyString)) = true ->
  has_booking_keyword (lower e) = true.
Proof.
  unfold has_booking_keyword. intro H.
  apply existsb_exists in H as (w & Hin & Hc).
  apply existsb_exists. exists w. split; [exact Hin|].
  rewrite lower_app in Hc. cbn [append lower] in Hc.
  change (String (lower_char " ") EmptyString) with " " in Hc.
  apply contains_before_space in Hc; [exact Hc| |];
    unfold booking_keywords in Hin; cbn [In] in Hin;
    repeat (destruct Hin as [<-|Hin]; [first [discriminate|reflexivity]|]);
    contradiction.
Qed.

Lemma keyword_with_context (e context : string) :
  has_booking_keyword (lower e) = true ->
  has_booking_keyword (lower (e ++ " " ++ context)) = true.
Proof.
  unfold has_booking_keyword. intro H.
  apply existsb_exists in H as (w & Hin & Hc).
  apply existsb_exists. exists w. split; [exact Hin|].
  rewrite lower_app. now apply contains_app_l.
Qed.

Lemma page_contacts_booking (soup_anchors : string -> list anchor) (url html : string) :
  Forall booking_consistent (page_contacts soup_anchors url html).
Proof.
  unfold page_contacts.
  assert (T : forall l acc, Forall booking_consistent acc ->
              Forall booking_consistent (fold_left (text_step url) l acc)).
  { induction l as [|x l IH]; intros acc H; cbn [fold_left]; [exact H|].
    apply IH. unfold text_step.
    destruct (_is_valid_email x); [|exact H]. destruct (negb _); [|exact H].
    apply Forall_app; split; [exact H|]. constructor; [|constructor].
    split; cbn [email contact_type confidence].
    - intro K. apply classify_booking_iff. now apply keyword_with_context.
    - intro B. right. apply classify_booking_iff in B.
      now apply keyword_without_context. }
  assert (L : forall l acc, Forall booking_consistent acc ->
              Forall booking_consistent (fold_left (mailto_step url) l acc)).
  { induction l as [|x l IH]; intros acc H; cbn [fold_left]; [exact H|].
    apply IH. unfold mailto_step.
    destruct (_is_valid_email _); [|exact H]. cbv zeta.
    apply Forall_app; split; [exact H|]. constructor; [|constructor].
    split; cbn [email contact_type confidence].
    - intro K. apply classify_booking_iff. now apply keyword_with_context.
    - intro B. left. rewrite B. reflexivity. }
  apply T, L. constructor.
Qed.

Lemma type_priority_zero (t : string) : type_priority t = 0 -> t = "booking".
Proof.
  unfold type_priority. destruct (String.eqb t "booking") eqn:E.
  - intros _. now apply String.eqb_eq.
  - destruct (String.eqb t "host"); [discriminate|].
    destruct (String.eqb t "producer"); [discriminate|].
    destruct (String.eqb t "general"); discriminate.
Qed.

(** Among candidates built by the page scan, a booking observation of an
    address is never displaced by an observation of another type. *)
Lemma booking_survives_dedupe (pool : list ContactResult) (b : ContactResult) :
  Forall stored_ok pool -> Forall booking_consistent pool ->
  In b pool -> contact_type b = "booking" ->
  exists k, In k (dedupe pool) /\ email k = email b /\ contact_type k = "booking".
Proof.
  intros S B Hb Tb. rewrite Forall_forall in S, B.
  pose proof (best_for_spec (email b) pool) as P.
  destruct (best_for (email b) pool) as [k|] eqn:K; [|now destruct (P b Hb)].
  destruct P as (l1 & l2 & E & Ek & Hlt & Hle).
  assert (Hk : In k pool) by (rewrite E; apply in_elt).
  exists k. split; [apply In_dedupe_iff; now rewrite Ek|]. split; [exact Ek|].
  destruct (proj2 (B b Hb) Tb) as [Q|W].
  - assert (Le : (confidence b <= confidence k)%Q).
    { rewrite E in Hb. apply in_app_iff in Hb as [H|[<-|H]].
      - apply Qlt_le_weak. now apply Hlt.
      - apply Qle_refl.
      - now apply Hle. }
    destruct (S k Hk) as (_ & C & _).
    destruct C as [[_ T]|[[C _]|C]]; [exact T| |]; exfalso;
      rewrite Q, C in Le; vm_compute in Le; now apply Le.
  - apply (proj1 (B k Hk)). now rewrite Ek.
Qed.

End BookingFirst.

Section BookingFirstClaims.
Import PyStr Re Py ContactFinder.

Variable session_get : string -> outcome response.
Variable soup_anchors : string -> list anchor.

(** X19.  If the scan of a site yields a candidate of type booking, the
    primary contact that [find_contacts] returns is of type booking: among
    candidates built by the page scan the dedupe step never drops a booking
    observation for one of another type, and booking sorts first. *)
Theorem booking_candidate_makes_primary
    (base_url podcast_name : string) (social_links : option (list string))
    (pool : list ContactResult) (b : ContactResult)
    (site_given : truthy base_url = true)
    (scanned : _scan_website session_get soup_anchors base_url = Ret pool)
    (in_pool : In b pool)
    (is_booking : contact_type b = "booking") :
  exists primary backup,
    find_contacts session_get soup_anchors (Some base_url) podcast_name social_links
      = Ret (Some primary, backup)
    /\ contact_type primary = "booking".
Proof.
  rewrite scan_website_result in scanned. injection scanned as <-.
  rewrite find_contacts_result. cbv zeta. rewrite site_given.
  set (pool := flat_map _ paths_to_check) in *.
  assert (F : Forall (fun c => stored_ok c /\ booking_consistent c) pool).
  { apply Forall_forall. intros c Hc. subst pool.
    apply in_flat_map in Hc as (path & _ & Hc). unfold page_result in Hc.
    destruct (session_get _) as [resp|e]; [|contradiction].
    destruct (status resp =? 200)%Z; [|contradiction].
    destruct (text resp) as [html|e]; [|contradiction].
    pose proof (page_contacts_stored_ok soup_anchors (rstrip_slash base_url ++ path) html) as F1.
    pose proof (page_contacts_booking soup_anchors (rstrip_slash base_url ++ path) html) as F2.
    rewrite Forall_forall in F1, F2. split; auto. }
  destruct (booking_survives_dedupe pool b) as (k & Hk & _ & Tk);
    [eapply Forall_impl; [|exact F]; cbv beta; tauto
    |eapply Forall_impl; [|exact F]; cbv beta; tauto
    |exact in_pool|exact is_booking|].
  apply (Permutation_in _ (rank_perm pool)) in Hk.
  pose proof (sort_by_sorted (dedupe pool)) as S. fold (_rank_contacts pool) in S.
  destruct (_rank_contacts pool) as [|p r]; [contradiction|].
  exists p, (nth_error (p :: r) 1). split; [reflexivity|].
  destruct Hk as [<-|Hk]; [exact Tk|].
  apply StronglySorted_inv in S as [_ S]. rewrite Forall_forall in S.
  specialize (S k Hk). unfold key_le, sort_key in S. cbn [fst snd] in S.
  rewrite Tk in S. change (type_priority "booking") with 0 in S.
  apply type_priority_zero. destruct S as [S|[S _]]; [lia|exact S].
Qed.

End BookingFirstClaims.

Section BookingFirstWitness.
Import PyStr Re Py ContactFinder.

(** X19 at the scenario site, whose homepage has a mail link for press. *)
Lemma booking_primary_at_scenario :
  truthy Scenario.homepage_url = true
  /\ _scan_website Scenario.session_get Scenario.soup_anchors Scenario.homepage_url
     = Ret [ mkContactResult "press@show.com" Scenario.homepage_url "booking" 0.9;
             mkContactResult "info@show.com" Scenario.homepage_url "general" 0.6 ]
  /\ exists primary backup,
       find_contacts Scenario.session_get Scenario.soup_anchors
         (Some Scenario.homepage_url) "The Show" None = Ret (Some primary, backup)
       /\ contact_type primary = "booking".
Proof.
  assert (S : _scan_website Scenario.session_get Scenario.soup_anchors
                Scenario.homepage_url
              = Ret [ mkContactResult "press@show.com" Scenario.homepage_url "booking" 0.9;
                      mkContactResult "info@show.com" Scenario.homepage_url "general" 0.6 ])
    by (vm_compute; reflexivity).
  split; [reflexivity|]. split; [exact S|].
  exact (booking_candidate_makes_primary Scenario.session_get Scenario.soup_anchors
           Scenario.homepage_url "The Show" None _
           (mkContactResult "press@show.com" Scenario.homepage_url "booking" 0.9)
           eq_refl S (or_introl eq_refl) eq_refl).
Defined.

End BookingFirstWitness.
